(** * Synchronisation of the site database with the Discord cache

    A shallow embedding of [bot/exts/backend/sync/_syncers.py]: the entity
    records, the two diff computers ([RoleSyncer._get_diff],
    [UserSyncer._get_diff]), the paginated reader ([UserSyncer._get_users]),
    the two apply phases ([_sync]) and the generic driver ([Syncer.sync]),
    followed by the properties stated about them.

    Python sets are [gset]s, Python lists are [list]s, Python dicts that the
    code builds key by key are association lists in insertion order.
    Coroutines that talk to the site API or to Discord are computations in a
    small monad that threads the list of requests issued so far, the
    messages of the progress sink and the log, and that can raise. *)

From Stdlib Require Import Ascii.
From stdpp Require Import gmap strings list pretty.

Local Open Scope Z_scope.
Local Open Scope string_scope.
Local Open Scope list_scope.

(** ** Entity records *)

(** [_Role = namedtuple('Role', ('id', 'name', 'colour', 'permissions',
    'position'))]: a hashable tuple, compared field by field. *)
Record _Role := Role {
  role_id : Z;
  role_name : string;
  role_colour : Z;
  role_permissions : Z;
  role_position : Z
}.

#[global] Instance _Role_eq_dec : EqDecision _Role.
Proof. solve_decision. Defined.

#[global] Instance _Role_countable : Countable _Role.
Proof.
  refine (inj_countable'
    (λ r, (role_id r, role_name r, role_colour r, role_permissions r,
           role_position r))
    (λ t, let '(i, n, c, p, q) := t in Role i n c p q) _).
  by intros [].
Defined.

(** [_Diff = namedtuple('Diff', ('created', 'updated', 'deleted'))].  Both
    syncers build [created] and [updated] as collections of one type; only
    [deleted] is ever [None]. *)
Record _Diff (D : Type) := Diff {
  created : D;
  updated : D;
  deleted : option D
}.
Arguments Diff {D} _ _ _.
Arguments created {D} _.
Arguments updated {D} _.
Arguments deleted {D} _.

(** [diff._asdict()]: the fields by name, in declaration order. *)
Definition _asdict {D} (diff : _Diff D) : list (string * option D) :=
  [("created", Some (created diff));
   ("updated", Some (updated diff));
   ("deleted", deleted diff)].

(** ** The Discord cache

    [discord.Guild], [discord.Role] and [discord.Member] come from the
    client library; only the attributes the syncers read are kept.
    [gr_colour] is [role.colour.value], [gr_permissions] is
    [role.permissions.value].  A member's discriminator is a string of
    decimal digits in the library; [member_discriminator] holds the integer
    that [int(member.discriminator)] returns for it. *)
Record GuildRole := {
  gr_id : Z;
  gr_name : string;
  gr_colour : Z;
  gr_permissions : Z;
  gr_position : Z
}.

Record Member := {
  member_id : Z;
  member_name : string;
  member_discriminator : Z;
  member_roles : list GuildRole
}.

Record Guild := {
  g_roles : list GuildRole;
  g_members : list Member
}.

(** [guild.get_member(user_id)]: the member with that id, or [None]. *)
Definition get_member (guild : Guild) (user_id : Z) : option Member :=
  find (λ m, bool_decide (member_id m = user_id)) (g_members guild).

(** ** Site records *)

(** One element of the [results] of [GET bot/users]. *)
Record DbUser := {
  db_id : Z;
  db_name : string;
  db_discriminator : Z;
  db_roles : list Z;
  db_in_guild : bool
}.

(** Values stored in the user dictionaries sent to the site. *)
Inductive value :=
| VBool (b : bool)
| VInt (n : Z)
| VStr (s : string)
| VIds (l : list Z).

#[global] Instance value_eq_dec : EqDecision value.
Proof. solve_decision. Defined.

(** A Python dict built by assignments: keys in insertion order. *)
Abbreviation dict := (list (string * value)).

(** [d[k] = v]: replaces the value of an existing key, appends a new one. *)
Fixpoint dict_set (k : string) (v : value) (d : dict) : dict :=
  match d with
  | [] => [(k, v)]
  | (k', v') :: d' =>
      if decide (k' = k) then (k', v) :: d' else (k', v') :: dict_set k v d'
  end.

(** [d.get(k)]. *)
Fixpoint dict_get (k : string) (d : dict) : option value :=
  match d with
  | [] => None
  | (k', v) :: d' => if decide (k' = k) then Some v else dict_get k d'
  end.

(** The id carried by a user dictionary. *)
Definition dict_id (d : dict) : option Z :=
  match dict_get "id" d with
  | Some (VInt n) => Some n
  | _ => None
  end.

(** ** JSON bodies of error responses and how Python prints them *)

(** A decoded JSON value.  Floating point is not modelled: a number with
    a fraction or an exponent is kept as the text Python prints for it
    and as whether it is other than zero. *)
#[warnings="-register-all"]
Inductive json :=
| JNull
| JBool (b : bool)
| JInt (n : Z)
| JFloat (text : string) (nonzero : bool)
| JStr (s : string)
| JList (l : list json)
| JDict (d : list (string * json)).

(** Truth value of a decoded body: [None], [False], [0], [0.0] and the
    empty string, list and dict are false. *)
Definition py_truthy (j : json) : bool :=
  match j with
  | JNull => false
  | JBool b => b
  | JInt n => bool_decide (n ≠ 0)
  | JFloat _ nonzero => nonzero
  | JStr s => bool_decide (s ≠ "")
  | JList l => bool_decide (l ≠ [])
  | JDict d => bool_decide (d ≠ [])
  end.

Definition newline : string := String "010"%char "".
Definition squote : ascii := "039"%char.
Definition dquote : ascii := "034"%char.

Fixpoint string_mem (c : ascii) (s : string) : bool :=
  match s with
  | EmptyString => false
  | String c' s' => if decide (c' = c) then true else string_mem c s'
  end.

Definition hex_digit (n : N) : ascii :=
  match n with
  | 0 => "0" | 1 => "1" | 2 => "2" | 3 => "3" | 4 => "4" | 5 => "5"
  | 6 => "6" | 7 => "7" | 8 => "8" | 9 => "9" | 10 => "a" | 11 => "b"
  | 12 => "c" | 13 => "d" | 14 => "e" | _ => "f"
  end%N%char.

(** One character of [repr] of a [str] quoted with [q].  This is what
    Python prints for ASCII text.  Bytes from 128 up are copied, which is
    right for the printable characters beyond ASCII only (Python escapes
    the others), so what is proved about the text of a body is proved for
    ASCII bodies ([ascii_json] below). *)
Definition repr_char (q c : ascii) : string :=
  let n := N_of_ascii c in
  if decide (c = "\"%char) then "\\"
  else if decide (c = q) then String "\"%char (String q "")
  else if decide (n = 9%N) then "\t"
  else if decide (n = 10%N) then "\n"
  else if decide (n = 13%N) then "\r"
  else if decide (n < 32 ∨ n = 127)%N
       then "\x" +:+ String (hex_digit (n / 16)) (String (hex_digit (n mod 16)) "")
  else String c "".

Fixpoint repr_chars (q : ascii) (s : string) : string :=
  match s with
  | EmptyString => ""
  | String c s' => repr_char q c +:+ repr_chars q s'
  end.

(** [repr(s)] for a string: single quotes unless the text has a single
    quote and no double quote. *)
Definition repr_str (s : string) : string :=
  let q := if string_mem squote s && negb (string_mem dquote s)
           then dquote else squote in
  String q (repr_chars q s) +:+ String q "".

(** [repr(j)] of a decoded JSON value. *)
Fixpoint py_repr (j : json) : string :=
  match j with
  | JNull => "None"
  | JBool true => "True"
  | JBool false => "False"
  | JInt n => pretty n
  | JFloat text _ => text
  | JStr s => repr_str s
  | JList l => "[" +:+ String.concat ", " (map py_repr l) +:+ "]"
  | JDict d =>
      "{" +:+ String.concat ", "
                (map (λ kv, let '(k, v) := kv in
                            repr_str k +:+ ": " +:+ py_repr v) d) +:+ "}"
  end.

(** [str(j)], what an f-string inserts: a string as it is, anything else
    as its [repr]. *)
Definition py_str (j : json) : string :=
  match j with
  | JStr s => s
  | _ => py_repr j
  end.



(** ** The site API and the effects of a run *)

Inductive verb := GET | POST | PUT | PATCH | DELETE.

(** What a request carries besides its endpoint. *)
Inductive payload :=
| NoPayload
| PageParam (page : Z)            (* params={"page": page} *)
| RoleJson (role : _Role)         (* json=role._asdict() *)
| UsersJson (users : list dict).  (* json=[...] *)

Record Call := {
  method : verb;
  endpoint : string;
  body : payload
}.

(** Decoded answers of the site. *)
Inductive response :=
| RolesJson (roles : list _Role)
| UsersPage (results : list DbUser) (next_page_no : option Z)
| NoContent.

(** Exceptions: [bot.api.ResponseCodeError] with its [status] and
    [response_json], and everything else. *)
Inductive exn :=
| ResponseCodeError (status : Z) (response_json : json)
| OtherError (kind : string).

Definition is_ResponseCodeError (e : exn) : bool :=
  match e with
  | ResponseCodeError _ _ => true
  | OtherError _ => false
  end.

(** The site: its answer to a request, given the requests it has already
    received in this run. *)
Abbreviation Backend := (list Call → Call → exn + response).

Record World := {
  calls : list Call;       (* requests issued, oldest first *)
  messages : list string;  (* progress sink: message handle -> content *)
  log : list string
}.

Definition world0 : World := {| calls := []; messages := []; log := [] |}.

Inductive result (A : Type) :=
| Ok (a : A)
| Raise (e : exn)
| OutOfFuel.
Arguments Ok {A} _.
Arguments Raise {A} _.
Arguments OutOfFuel {A}.

Definition M (A : Type) : Type := Backend → World → result A * World.

#[global] Instance M_ret : MRet M := λ A a api w, (Ok a, w).

#[global] Instance M_bind : MBind M := λ A B f m api w,
  match m api w with
  | (Ok a, w') => f a api w'
  | (Raise e, w') => (Raise e, w')
  | (OutOfFuel, w') => (OutOfFuel, w')
  end.

#[global] Instance M_fmap : FMap M := λ A B f m, a ← m; mret (f a).

Definition raise {A} (e : exn) : M A := λ api w, (Raise e, w).

Definition out_of_fuel {A} : M A := λ api w, (OutOfFuel, w).

(** [await self.bot.api_client.<verb>(endpoint, ...)]. *)
Definition request (c : Call) : M response := λ api w,
  let w' := {| calls := calls w ++ [c]; messages := messages w; log := log w |} in
  match api (calls w) c with
  | inl e => (Raise e, w')
  | inr r => (Ok r, w')
  end.

Definition log_line (line : string) : M unit := λ api w,
  (Ok (), {| calls := calls w; messages := messages w; log := log w ++ [line] |}).

(** [await ctx.send(text)]: a new message; its handle is returned. *)
Definition ctx_send (text : string) : M nat := λ api w,
  (Ok (length (messages w)),
   {| calls := calls w; messages := messages w ++ [text]; log := log w |}).

(** [await message.edit(content=content)]. *)
Definition message_edit (message : nat) (content : string) : M unit := λ api w,
  (Ok (),
   {| calls := calls w; messages := <[message := content]> (messages w);
      log := log w |}).

(** [try: body / except ResponseCodeError as e: ...]: the left injection
    carries [e.status] and [e.response_json]. *)
Definition try_ResponseCodeError {A} (body : M A) : M (Z * json + A) := λ api w,
  match body api w with
  | (Ok a, w') => (Ok (inr a), w')
  | (Raise (ResponseCodeError status response_json), w') =>
      (Ok (inl (status, response_json)), w')
  | (Raise e, w') => (Raise e, w')
  | (OutOfFuel, w') => (OutOfFuel, w')
  end.

(** [for x in xs: await f(x)]. *)
Fixpoint for_each {A} (xs : list A) (f : A → M unit) : M unit :=
  match xs with
  | [] => mret ()
  | x :: xs' => f x;; for_each xs' f
  end.

(** ** Logging *)

Definition log_trace (msg : string) : M unit := log_line ("TRACE " +:+ msg).
Definition log_info (msg : string) : M unit := log_line ("INFO " +:+ msg).
(** [log.exception]: an ERROR record (the traceback is not kept). *)
Definition log_exception (msg : string) : M unit := log_line ("ERROR " +:+ msg).

(** ** [class Syncer] *)

(** [len(val)] of a partition. *)
Class Len (D : Type) := len : D → nat.
#[global] Instance len_list {A} : Len (list A) := length.
#[global] Instance len_gset `{Countable A} : Len (gset A) := size.

(** The abstract members of [Syncer].  [_get_diff] takes the number of
    pages it may request before the model gives up ([OutOfFuel]); the
    role syncer ignores it. *)
Record Syncer (D : Type) := {
  name : string;
  _get_diff : nat → Guild → M (_Diff D);
  _sync : _Diff D → M unit
}.
Arguments name {D} _.
Arguments _get_diff {D} _ _ _.
Arguments _sync {D} _ _.

(** The command context, when the sync was started by a command. *)
Inductive Context := CommandContext.

(** Lines 62-63: the text shown when [_sync] raised [ResponseCodeError]. *)
Definition failed_content (name : string) (status : Z) (response_json : json)
  : string :=
  let results :=
    "status " +:+ pretty status +:+ newline +:+ "```" +:+
    (if py_truthy response_json then py_str response_json
     else "See log output for details") +:+ "```" in
  ":x: Synchronisation of " +:+ name +:+ "s failed: " +:+ results.

(** Lines 65-67: one term per partition that is not [None]. *)
Definition results_of {D} `{Len D} (diff : _Diff D) : string :=
  String.concat ", "
    (omap (λ item, let '(name, val) := item in
                   (λ v, name +:+ " `" +:+ pretty (len v) +:+ "`") <$> val)
          (_asdict diff)).

Definition complete_content (name results : string) : string :=
  ":ok_hand: Synchronisation of " +:+ name +:+ "s complete: " +:+ results.

(** [Syncer.sync]. *)
Definition sync {D} `{Len D} (self : Syncer D) (fuel : nat) (guild : Guild)
    (ctx : option Context) : M unit :=
  log_info ("Starting " +:+ name self +:+ " syncer.");;
  message ← match ctx with
            | Some _ =>
                Some <$> ctx_send ("📊 Synchronising " +:+ name self +:+ "s.")
            | None => mret None
            end;
  diff ← _get_diff self fuel guild;
  outcome ← try_ResponseCodeError (_sync self diff);
  content ← match outcome with
            | inl (status, response_json) =>
                log_exception (name self +:+ " syncer failed!");;
                mret (failed_content (name self) status response_json)
            | inr _ =>
                let results := results_of diff in
                log_info (name self +:+ " syncer finished: " +:+ results +:+ ".");;
                mret (complete_content (name self) results)
            end;
  match message with
  | Some message => message_edit message content
  | None => mret ()
  end.

(** ** [class RoleSyncer] *)

(** The common format guild roles are packed into (lines 90-96). *)
Definition role_of_guild (role : GuildRole) : _Role :=
  Role (gr_id role) (gr_name role) (gr_colour role) (gr_permissions role)
       (gr_position role).

(** Lines 100-111 of [RoleSyncer._get_diff]: the diff of two role sets. *)
Definition role_diff (guild_roles db_roles : gset _Role) : _Diff (gset _Role) :=
  let guild_role_ids : gset Z := set_map role_id guild_roles in
  let api_role_ids : gset Z := set_map role_id db_roles in
  let new_role_ids := guild_role_ids ∖ api_role_ids in
  let deleted_role_ids := api_role_ids ∖ guild_role_ids in
  let roles_to_create :=
    filter (λ role, role_id role ∈ new_role_ids) guild_roles in
  let roles_to_update := guild_roles ∖ db_roles ∖ roles_to_create in
  let roles_to_delete :=
    filter (λ role, role_id role ∈ deleted_role_ids) db_roles in
  Diff roles_to_create roles_to_update (Some roles_to_delete).

Definition get_roles : Call :=
  {| method := GET; endpoint := "bot/roles"; body := NoPayload |}.

(** [RoleSyncer._get_diff]. *)
Definition RoleSyncer_get_diff (guild : Guild) : M (_Diff (gset _Role)) :=
  log_trace "Getting the diff for roles.";;
  res ← request get_roles;
  roles ← match res with
          | RolesJson roles => mret roles
          | _ => raise (OtherError "TypeError")
          end;
  let db_roles : gset _Role := list_to_set roles in
  let guild_roles : gset _Role := list_to_set (role_of_guild <$> g_roles guild) in
  mret (role_diff guild_roles db_roles).

Definition post_role (role : _Role) : Call :=
  {| method := POST; endpoint := "bot/roles"; body := RoleJson role |}.
Definition put_role (role : _Role) : Call :=
  {| method := PUT; endpoint := "bot/roles/" +:+ pretty (role_id role);
     body := RoleJson role |}.
Definition delete_role (role : _Role) : Call :=
  {| method := DELETE; endpoint := "bot/roles/" +:+ pretty (role_id role);
     body := NoPayload |}.

(** [RoleSyncer._sync].  A set is visited in the order of [elements];
    iterating over [None] raises [TypeError]. *)
Definition RoleSyncer_sync (diff : _Diff (gset _Role)) : M unit :=
  log_trace "Syncing created roles...";;
  for_each (elements (created diff)) (λ role, request (post_role role);; mret ());;
  log_trace "Syncing updated roles...";;
  for_each (elements (updated diff)) (λ role, request (put_role role);; mret ());;
  log_trace "Syncing deleted roles...";;
  match deleted diff with
  | Some roles =>
      for_each (elements roles) (λ role, request (delete_role role);; mret ())
  | None => raise (OtherError "TypeError")
  end.

Definition RoleSyncer : Syncer (gset _Role) :=
  {| name := "role";
     _get_diff := λ _ guild, RoleSyncer_get_diff guild;
     _sync := RoleSyncer_sync |}.

(** ** [class UserSyncer] *)

(** [maybe_update(db_field, guild_value)], with [db_user[db_field]] passed
    as [db_value]. *)
Definition maybe_update (db_field : string) (db_value guild_value : value)
    (updated_fields : dict) : dict :=
  if decide (db_value ≠ guild_value)
  then dict_set db_field guild_value updated_fields
  else updated_fields.

(** Lines 143-167: the fields to update for one site user. *)
Definition updated_fields_of (guild : Guild) (db_user : DbUser) : dict :=
  match get_member guild (db_id db_user) with
  | Some guild_user =>
      let updated_fields : dict := [] in
      let updated_fields :=
        maybe_update "name" (VStr (db_name db_user))
                     (VStr (member_name guild_user)) updated_fields in
      let updated_fields :=
        maybe_update "discriminator" (VInt (db_discriminator db_user))
                     (VInt (member_discriminator guild_user)) updated_fields in
      let updated_fields :=
        maybe_update "in_guild" (VBool (db_in_guild db_user)) (VBool true)
                     updated_fields in
      let guild_roles := gr_id <$> member_roles guild_user in
      if decide ((list_to_set (db_roles db_user) : gset Z) ≠ list_to_set guild_roles)
      then dict_set "roles" (VIds guild_roles) updated_fields
      else updated_fields
  | None =>
      if db_in_guild db_user then dict_set "in_guild" (VBool false) []
      else []
  end.

(** One turn of the loop over the site users (lines 141-171), on the pair
    ([users_to_update], [seen_guild_users]). *)
Definition user_step (guild : Guild) (st : list dict * gset Z)
    (db_user : DbUser) : list dict * gset Z :=
  let '(users_to_update, seen_guild_users) := st in
  let seen_guild_users :=
    match get_member guild (db_id db_user) with
    | Some guild_user => {[member_id guild_user]} ∪ seen_guild_users
    | None => seen_guild_users
    end in
  let updated_fields := updated_fields_of guild db_user in
  match updated_fields with
  | [] => (users_to_update, seen_guild_users)
  | _ :: _ =>
      (users_to_update ++ [dict_set "id" (VInt (db_id db_user)) updated_fields],
       seen_guild_users)
  end.

(** Lines 177-183. *)
Definition new_user (member : Member) : dict :=
  [("id", VInt (member_id member));
   ("name", VStr (member_name member));
   ("discriminator", VInt (member_discriminator member));
   ("roles", VIds (gr_id <$> member_roles member));
   ("in_guild", VBool true)].

(** Lines 137-186 without the reads: the diff of the guild against the
    sequence of site users. *)
Definition user_diff (guild : Guild) (db_users : list DbUser)
  : _Diff (list dict) :=
  let '(users_to_update, seen_guild_users) :=
    foldl (user_step guild) ([], ∅) db_users in
  let users_to_create :=
    new_user <$> filter (λ member, member_id member ∉ seen_guild_users)
                        (g_members guild) in
  Diff users_to_create users_to_update None.

Definition get_users_page (page : Z) : Call :=
  {| method := GET; endpoint := "bot/users"; body := PageParam page |}.

(** The loop of [UserSyncer._get_users] from the cursor
    [query_params["page"] = page]; it stops on [None] and on [0].  This is
    the generator as its one consumer, the [async for] of [_get_diff], sees
    it when it ends: all the users on a normal end, the error otherwise.
    [_get_users_yields] below keeps what was yielded before an error. *)
Fixpoint _get_users_from (fuel : nat) (page : option Z) : M (list DbUser) :=
  match page with
  | None => mret []
  | Some p =>
      if decide (p = 0) then mret []
      else match fuel with
           | O => out_of_fuel
           | S fuel' =>
               res ← request (get_users_page p);
               match res with
               | UsersPage results next_page_no =>
                   rest ← _get_users_from fuel' next_page_no;
                   mret (results ++ rest)
               | _ => raise (OtherError "TypeError")
               end
           end
  end.

(** [UserSyncer._get_users]. *)
Definition _get_users (fuel : nat) : M (list DbUser) :=
  _get_users_from fuel (Some 1).

(** The same loop as the asynchronous generator it is: the users it has
    yielded, in order, then how it ended ([Ok ()] when the loop is over,
    [Raise e] when a page request raised [e]) and the world at that
    point.  The users of a page are yielded before the next page is
    requested, so they are part of the result also when a later request
    fails. *)
Fixpoint _get_users_yields (fuel : nat) (page : option Z) (api : Backend)
    (w : World) : list DbUser * (result () * World) :=
  match page with
  | None => ([], (Ok (), w))
  | Some p =>
      if decide (p = 0) then ([], (Ok (), w))
      else match fuel with
           | O => ([], (OutOfFuel, w))
           | S fuel' =>
               match request (get_users_page p) api w with
               | (Ok (UsersPage results next_page_no), w') =>
                   let '(users, ending) :=
                     _get_users_yields fuel' next_page_no api w' in
                   (results ++ users, ending)
               | (Ok _, w') => ([], (Raise (OtherError "TypeError"), w'))
               | (Raise e, w') => ([], (Raise e, w'))
               | (OutOfFuel, w') => ([], (OutOfFuel, w'))
               end
           end
  end.

(** [UserSyncer._get_diff]. *)
Definition UserSyncer_get_diff (fuel : nat) (guild : Guild)
  : M (_Diff (list dict)) :=
  log_trace "Getting the diff for users.";;
  db_users ← _get_users fuel;
  mret (user_diff guild db_users).

Definition post_users (users : list dict) : Call :=
  {| method := POST; endpoint := "bot/users"; body := UsersJson users |}.
Definition patch_users (users : list dict) : Call :=
  {| method := PATCH; endpoint := "bot/users/bulk_patch";
     body := UsersJson users |}.

(** [UserSyncer._sync]; [if diff.created:] tests for a non-empty list. *)
Definition UserSyncer_sync (diff : _Diff (list dict)) : M unit :=
  log_trace "Syncing created users...";;
  match created diff with
  | [] => mret ()
  | _ :: _ => request (post_users (created diff));; mret ()
  end;;
  log_trace "Syncing updated users...";;
  match updated diff with
  | [] => mret ()
  | _ :: _ => request (patch_users (updated diff));; mret ()
  end.

Definition UserSyncer : Syncer (list dict) :=
  {| name := "user";
     _get_diff := UserSyncer_get_diff;
     _sync := UserSyncer_sync |}.

(** ** The closed set of syncers *)

Inductive kind := RoleKind | UserKind.

(** The type of one partition of the diff of a kind. *)
Definition partition (k : kind) : Type :=
  match k with
  | RoleKind => gset _Role
  | UserKind => list dict
  end.

#[global] Instance len_partition (k : kind) : Len (partition k) :=
  match k with
  | RoleKind => size
  | UserKind => length
  end.

Definition syncer_of (k : kind) : Syncer (partition k) :=
  match k with
  | RoleKind => RoleSyncer
  | UserKind => UserSyncer
  end.

(** ** Notions used to state the properties *)

(** The ids of the entities of a partition, and of a whole diff. *)
Definition role_partition_ids (X : gset _Role) : list Z :=
  role_id <$> elements X.

Definition user_partition_ids (l : list dict) : list Z :=
  omap dict_id l.

Definition diff_ids {D} (ids : D → list Z) (diff : _Diff D) : list Z :=
  ids (created diff) ++ ids (updated diff) ++ from_option ids [] (deleted diff).

(** No two roles of a snapshot share an id. *)
Definition unique_ids (X : gset _Role) : Prop :=
  NoDup (role_partition_ids X).

(** What the loop of [UserSyncer._get_diff] appends to [users_to_update]
    for one site user: nothing, or one dictionary. *)
Definition user_update (guild : Guild) (db_user : DbUser) : list dict :=
  match updated_fields_of guild db_user with
  | [] => []
  | (_ :: _) as updated_fields =>
      [dict_set "id" (VInt (db_id db_user)) updated_fields]
  end.

(** The ids the loop adds to [seen_guild_users]. *)
Definition seen_members (guild : Guild) (db_users : list DbUser) : gset Z :=
  list_to_set (omap (λ u, member_id <$> get_member guild (db_id u)) db_users).

Definition set_calls (cs : list Call) (w : World) : World :=
  {| calls := cs; messages := messages w; log := log w |}.

Definition add_log (lines : list string) (w : World) : World :=
  {| calls := calls w; messages := messages w; log := log w ++ lines |}.

(** The requests of a list issued one after the other until one fails: the
    requests received by the site at the end, and the error if any. *)
Fixpoint issue (api : Backend) (hist cs : list Call) : list Call * option exn :=
  match cs with
  | [] => (hist, None)
  | c :: cs' =>
      match api hist c with
      | inl e => (hist ++ [c], Some e)
      | inr _ => issue api (hist ++ [c]) cs'
      end
  end.

Definition result_of (err : option exn) : result () :=
  match err with
  | None => Ok ()
  | Some e => Raise e
  end.

(** A computation is orderly when it leaves the progress sink alone, only
    adds requests, and raises [ResponseCodeError] only as the answer of
    the last request it issued. *)
Definition orderly {A} (m : M A) : Prop :=
  ∀ api w,
    messages (m api w).2 = messages w ∧
    ∃ cs, calls (m api w).2 = calls w ++ cs ∧
          ∀ e, (m api w).1 = Raise e → is_ResponseCodeError e = true →
               ∃ pre c, cs = pre ++ [c] ∧ api (calls w ++ pre) c = inl e.

(** The notice sent to the command context when [sync] starts. *)
Definition start_notice {D} (self : Syncer D) : string :=
  "📊 Synchronising " +:+ name self +:+ "s.".

(** The world in which [sync] calls [_get_diff]: one log line and, with a
    context, the start notice were added. *)
Definition started {D} (self : Syncer D) (ctx : option Context) (w : World)
  : World :=
  {| calls := calls w;
     messages := match ctx with
                 | Some _ => messages w ++ [start_notice self]
                 | None => messages w
                 end;
     log := log w ++ ["INFO Starting " +:+ name self +:+ " syncer."] |}.

(** The sink at the end of a run that reported [content]: with a context
    the notice of the run now reads [content]; without, nothing changed. *)
Definition reported (ctx : option Context) (content : string) (w : World)
  : list string :=
  match ctx with
  | Some _ => messages w ++ [content]
  | None => messages w
  end.

(** The last steps of [sync]: edit the notice, when there is one. *)
Definition finish (ctx : option Context) (message : nat) (content : string)
    (w : World) : World :=
  match ctx with
  | Some _ => {| calls := calls w;
                 messages := <[message := content]> (messages w);
                 log := log w |}
  | None => w
  end.

(** The site serves the finite page sequence [pages] to a reader that
    starts at [cursor] after the requests [hist]: the request for [cursor]
    is answered with the first page, every page but the last names a next
    cursor other than 0, under which the rest is served, and the last page
    has [next_page_no] null or 0. *)
Fixpoint serves (api : Backend) (hist : list Call) (cursor : Z)
    (pages : list (list DbUser * option Z)) : Prop :=
  match pages with
  | [] => False
  | (results, next_page_no) :: rest =>
      api hist (get_users_page cursor) = inr (UsersPage results next_page_no) ∧
      match rest with
      | [] => next_page_no = None ∨ next_page_no = Some 0
      | _ :: _ =>
          ∃ next, next_page_no = Some next ∧ next ≠ 0 ∧
                  serves api (hist ++ [get_users_page cursor]) next rest
      end
  end.

(** The requests [RoleSyncer._sync] sets out to issue, in order. *)
Definition role_requests (diff : _Diff (gset _Role)) : list Call :=
  (post_role <$> elements (created diff)) ++
  (put_role <$> elements (updated diff)) ++
  (delete_role <$> from_option elements [] (deleted diff)).

(** The requests [UserSyncer._sync] sets out to issue, in order. *)
Definition user_requests (diff : _Diff (list dict)) : list Call :=
  (if bool_decide (created diff ≠ []) then [post_users (created diff)] else []) ++
  (if bool_decide (updated diff ≠ []) then [patch_users (updated diff)] else []).

(** A site user and the live member of the same id agree on every field
    [UserSyncer._get_diff] compares: name, discriminator, membership, and
    the roles as a set. *)
Definition user_in_sync (m : Member) (u : DbUser) : Prop :=
  db_name u = member_name m ∧
  db_discriminator u = member_discriminator m ∧
  db_in_guild u = true ∧
  (list_to_set (db_roles u) : gset Z) = list_to_set (gr_id <$> member_roles m).

(** The site serves the pages of [pages], none of which ends the stream,
    and answers the request that follows them with the error [e]. *)
Fixpoint serves_until_failure (api : Backend) (hist : list Call) (cursor : Z)
    (pages : list (list DbUser * option Z)) (e : exn) : Prop :=
  match pages with
  | [] => api hist (get_users_page cursor) = inl e
  | (results, next_page_no) :: rest =>
      api hist (get_users_page cursor) = inr (UsersPage results next_page_no) ∧
      ∃ next, next_page_no = Some next ∧ next ≠ 0 ∧
              serves_until_failure api (hist ++ [get_users_page cursor]) next
                                   rest e
  end.

(** Every request a computation adds satisfies [P]. *)
Definition issues_only {A} (P : Call → Prop) (m : M A) : Prop :=
  ∀ api w, ∃ cs, calls (m api w).2 = calls w ++ cs ∧ Forall P cs.

(** The read requests of the two syncers. *)
Definition is_read (c : Call) : Prop :=
  method c = GET ∧ (endpoint c = "bot/roles" ∨ endpoint c = "bot/users").

(** The write requests of the two syncers. *)
Definition is_write (c : Call) : Prop :=
  (method c = POST ∧ (endpoint c = "bot/roles" ∨ endpoint c = "bot/users")) ∨
  (method c = PATCH ∧ endpoint c = "bot/users/bulk_patch") ∨
  ((method c = PUT ∨ method c = DELETE) ∧
   ∃ id : Z, endpoint c = "bot/roles/" +:+ pretty id).

(** The outcome and the requests of a computation depend on the world
    only through the requests already issued. *)
Definition api_driven {A} (m : M A) : Prop :=
  ∀ api w w', calls w = calls w' →
              (m api w).1 = (m api w').1 ∧
              calls (m api w).2 = calls (m api w').2.

(** ** Sample data *)

Module Sample.
Definition admins : GuildRole :=
  {| gr_id := 1; gr_name := "admins"; gr_colour := 255; gr_permissions := 8;
     gr_position := 2 |}.
Definition helpers : GuildRole :=
  {| gr_id := 2; gr_name := "helpers"; gr_colour := 0; gr_permissions := 0;
     gr_position := 1 |}.
Definition nine : Member :=
  {| member_id := 9; member_name := "nine"; member_discriminator := 1234;
     member_roles := [helpers] |}.
Definition guild : Guild :=
  {| g_roles := [admins; helpers]; g_members := [nine] |}.

(** The roles of the site: role 1 under an older name, and a role 3 the
    guild no longer has. *)
Definition site_roles : list _Role :=
  [Role 1 "admin" 255 8 2; Role 3 "old" 0 0 0].

Definition user (id : Z) (in_guild : bool) : DbUser :=
  {| db_id := id; db_name := "user"; db_discriminator := 1; db_roles := [];
     db_in_guild := in_guild |}.

(** Two pages of users: ids 1 and 2, then id 3. *)
Definition pages : list (list DbUser * option Z) :=
  [([user 1 false; user 2 false], Some 2); ([user 3 false], None)].

(** A site that serves these roles and pages and accepts every write. *)
Definition site : Backend := λ hist c,
  match method c, body c with
  | GET, NoPayload => inr (RolesJson site_roles)
  | GET, PageParam 1 => inr (UsersPage [user 1 false; user 2 false] (Some 2))
  | GET, PageParam 2 => inr (UsersPage [user 3 false] None)
  | _, _ => inr NoContent
  end.


(** A site that fails to serve the roles and the second page of users. *)
Definition failing_reads : Backend := λ hist c,
  match method c, body c with
  | GET, PageParam 1 => site hist c
  | GET, _ => inl (ResponseCodeError 500 JNull)
  | _, _ => inr NoContent
  end.

(** The record the site holds for member nine once it is in sync; the
    role list has a repetition. *)
Definition nine_record : DbUser :=
  {| db_id := 9; db_name := "nine"; db_discriminator := 1234;
     db_roles := [2; 2]; db_in_guild := true |}.

(** The record of member nine under an older name, marked as gone. *)
Definition nine_stale : DbUser :=
  {| db_id := 9; db_name := "old"; db_discriminator := 1234;
     db_roles := [2]; db_in_guild := false |}.

(** A site whose roles are those of the guild, in another order and with
    a repetition. *)
Definition synced_roles : Backend := λ hist c,
  inr (RolesJson [role_of_guild helpers; role_of_guild admins;
                  role_of_guild helpers]).

(** A site whose single page of users is in sync with the guild and ends
    the stream with 0. *)
Definition synced_users : Backend := λ hist c,
  inr (UsersPage [nine_record; user 5 false] (Some 0)).

(** A site whose every page names page 1 as the next one. *)
Definition endless : Backend := λ hist c, inr (UsersPage [] (Some 1)).

End Sample.

(** * Properties *)

(** ** Dictionaries and the guild *)

Lemma dict_get_set k v (d : dict) : dict_get k (dict_set k v d) = Some v.
Proof.
  induction d as [|[k' v'] d IH]; simpl.
  - by rewrite decide_True.
  - destruct (decide (k' = k)) as [->|Hne]; simpl.
    + by rewrite decide_True.
    + by rewrite decide_False.
Qed.

Lemma dict_id_set i (d : dict) : dict_id (dict_set "id" (VInt i) d) = Some i.
Proof. unfold dict_id. by rewrite dict_get_set. Qed.

Lemma dict_id_new_user m : dict_id (new_user m) = Some (member_id m).
Proof. reflexivity. Qed.

Lemma get_member_Some guild i m :
  get_member guild i = Some m → member_id m = i ∧ m ∈ g_members guild.
Proof.
  unfold get_member. intros Hf. apply find_some in Hf as [Hin Hb].
  apply bool_decide_eq_true in Hb. by rewrite list_elem_of_In.
Qed.

Lemma get_member_None guild i :
  get_member guild i = None ↔ ∀ m, m ∈ g_members guild → member_id m ≠ i.
Proof.
  unfold get_member. split.
  - intros Hf m Hm. rewrite list_elem_of_In in Hm.
    apply (find_none _ _ Hf) in Hm. by apply bool_decide_eq_false in Hm.
  - intros Hn. destruct (find _ _) as [m|] eqn:Hf; [|done].
    apply find_some in Hf as [Hin Hb]. apply bool_decide_eq_true in Hb.
    rewrite <- list_elem_of_In in Hin. by destruct (Hn m Hin).
Qed.

(** ** The role diff *)

Lemma role_diff_created (L B : gset _Role) (r : _Role) :
  r ∈ created (role_diff L B) ↔ r ∈ L ∧ ∀ b, b ∈ B → role_id b ≠ role_id r.
Proof.
  unfold role_diff; simpl.
  rewrite elem_of_filter, elem_of_difference, !elem_of_map.
  split.
  - intros [[_ Hn] Hr]. split; [done|]. intros b Hb Heq. apply Hn. eauto.
  - intros [Hr Hn]. split; [|done]. split; [eauto|].
    intros (b & Heq & Hb). by apply (Hn b).
Qed.

Lemma role_diff_deleted (L B : gset _Role) :
  ∃ X, deleted (role_diff L B) = Some X ∧
       ∀ r, r ∈ X ↔ r ∈ B ∧ ∀ l, l ∈ L → role_id l ≠ role_id r.
Proof.
  eexists; split; [reflexivity|]. intros r.
  rewrite elem_of_filter, elem_of_difference, !elem_of_map.
  split.
  - intros [[_ Hn] Hr]. split; [done|]. intros b Hb Heq. apply Hn. eauto.
  - intros [Hr Hn]. split; [|done]. split; [eauto|].
    intros (b & Heq & Hb). by apply (Hn b).
Qed.

Lemma role_diff_updated (L B : gset _Role) (r : _Role) :
  r ∈ updated (role_diff L B) ↔
  r ∈ L ∧ (r ∉ B) ∧ ∃ b, b ∈ B ∧ role_id b = role_id r.
Proof.
  change (updated (role_diff L B)) with ((L ∖ B) ∖ created (role_diff L B)).
  rewrite !elem_of_difference, role_diff_created. split.
  - intros [[Hl Hb] Hc]. split_and!; [done..|].
    destruct (decide (role_id r ∈ (set_map role_id B : gset Z))) as [Hin|Hout].
    + apply elem_of_map in Hin as (b & ? & ?). eauto.
    + destruct Hc. split; [done|]. intros b Hb' Heq. apply Hout.
      apply elem_of_map. eauto.
  - intros (Hl & Hb & b & Hb' & Heq). split; [done|].
    intros [_ Hn]. by apply (Hn b).
Qed.

(** C2: for all role sets L (live) and B (site), [created] holds exactly
    the roles of L whose id no role of B has, [deleted] exactly the roles of
    B whose id no role of L has, and [updated] is (L minus B) minus
    [created]; a live role equal in all five fields to a site role is never
    in [updated]. *)
Theorem role_diff_exact (L B : gset _Role) :
  (∀ r, r ∈ created (role_diff L B) ↔
        r ∈ L ∧ ∀ b, b ∈ B → role_id b ≠ role_id r) ∧
  (∃ X, deleted (role_diff L B) = Some X ∧
        ∀ r, r ∈ X ↔ r ∈ B ∧ ∀ l, l ∈ L → role_id l ≠ role_id r) ∧
  updated (role_diff L B) = (L ∖ B) ∖ created (role_diff L B) ∧
  (∀ l b, l ∈ L → b ∈ B →
          role_id l = role_id b → role_name l = role_name b →
          role_colour l = role_colour b →
          role_permissions l = role_permissions b →
          role_position l = role_position b →
          l ∉ updated (role_diff L B)).
Proof.
  split_and!.
  - apply role_diff_created.
  - apply role_diff_deleted.
  - reflexivity.
  - intros [] [] _ Hb; simpl; intros -> -> -> -> ->.
    by intros (_ & Hn & _)%role_diff_updated.
Qed.

Lemma NoDup_fmap_inj {A B} (f : A → B) (l : list A) x y :
  NoDup (f <$> l) → x ∈ l → y ∈ l → f x = f y → x = y.
Proof.
  induction l as [|a l IH]; intros Hnd Hx Hy Heq; [by apply elem_of_nil in Hx|].
  csimpl in Hnd. apply NoDup_cons in Hnd as [Hnotin Hnd].
  apply elem_of_cons in Hx as [->|Hx]; apply elem_of_cons in Hy as [->|Hy].
  - done.
  - destruct Hnotin. rewrite Heq. by apply list_elem_of_fmap_2.
  - destruct Hnotin. rewrite <- Heq. by apply list_elem_of_fmap_2.
  - by apply IH.
Qed.

Lemma role_partition_ids_NoDup (X Y : gset _Role) :
  unique_ids Y → X ⊆ Y → NoDup (role_partition_ids X).
Proof.
  intros Hu Hsub. apply NoDup_fmap_2_strong; [|apply NoDup_elements].
  intros r1 r2 Hr1 Hr2. apply (NoDup_fmap_inj role_id (elements Y)); [done|..];
    apply elem_of_elements, Hsub; by apply elem_of_elements.
Qed.

Lemma elem_of_role_partition_ids (X : gset _Role) i :
  i ∈ role_partition_ids X ↔ ∃ r, r ∈ X ∧ role_id r = i.
Proof.
  unfold role_partition_ids. rewrite list_elem_of_fmap.
  split; intros (r & H1 & H2); exists r; by rewrite ?elem_of_elements in *.
Qed.

Lemma role_diff_ids_NoDup (L B : gset _Role) :
  unique_ids L → unique_ids B →
  NoDup (diff_ids role_partition_ids (role_diff L B)).
Proof.
  intros HL HB. unfold diff_ids.
  destruct (role_diff_deleted L B) as (X & -> & HX); simpl.
  rewrite !NoDup_app. split_and!.
  - apply (role_partition_ids_NoDup _ L HL).
    intros r Hr. apply role_diff_created in Hr. tauto.
  - intros i (r & Hr & <-)%elem_of_role_partition_ids.
    apply role_diff_created in Hr as [Hl Hn].
    rewrite elem_of_app, !elem_of_role_partition_ids.
    intros [(r' & Hr' & Heq)|(r' & Hr' & Heq)].
    + apply role_diff_updated in Hr' as (_ & _ & b & Hb & Hid).
      apply (Hn b Hb). congruence.
    + apply HX in Hr' as [Hb _]. by apply (Hn r').
  - apply (role_partition_ids_NoDup _ L HL).
    intros r Hr. apply role_diff_updated in Hr. tauto.
  - intros i (r & Hr & <-)%elem_of_role_partition_ids.
    apply role_diff_updated in Hr as (Hl & _).
    rewrite elem_of_role_partition_ids. intros (r' & Hr' & Heq).
    apply HX in Hr' as [_ Hn]. by apply (Hn r).
  - apply (role_partition_ids_NoDup _ B HB).
    intros r Hr. apply HX in Hr. tauto.
Qed.

(** ** The user diff *)

Lemma elem_of_seen_members guild db_users i :
  i ∈ seen_members guild db_users ↔
  ∃ u m, u ∈ db_users ∧ get_member guild (db_id u) = Some m ∧ member_id m = i.
Proof.
  unfold seen_members. rewrite elem_of_list_to_set, list_elem_of_omap. split.
  - intros (u & Hu & Hm). destruct (get_member guild (db_id u)) as [m|] eqn:E;
      simplify_eq/=. eauto.
  - intros (u & m & Hu & Hm & <-). exists u. by rewrite Hm.
Qed.

Lemma user_step_eq guild users_to_update seen_guild_users u :
  user_step guild (users_to_update, seen_guild_users) u =
  (users_to_update ++ user_update guild u,
   match get_member guild (db_id u) with
   | Some guild_user => {[member_id guild_user]} ∪ seen_guild_users
   | None => seen_guild_users
   end).
Proof.
  unfold user_step, user_update.
  destruct (updated_fields_of guild u); by rewrite ?app_nil_r.
Qed.

Lemma seen_members_cons guild u us (seen : gset Z) :
  seen_members guild (u :: us) ∪ seen =
  seen_members guild us ∪
    match get_member guild (db_id u) with
    | Some guild_user => {[member_id guild_user]} ∪ seen
    | None => seen
    end.
Proof.
  unfold seen_members; cbn [omap list_omap].
  destruct (get_member guild (db_id u)) as [m|]; cbn [fmap option_fmap option_map].
  - rewrite list_to_set_cons, (assoc_L (∪)).
    by rewrite (comm_L (∪) (list_to_set _) {[member_id m]}).
  - done.
Qed.

Lemma foldl_user_step guild db_users users_to_update seen_guild_users :
  foldl (user_step guild) (users_to_update, seen_guild_users) db_users =
  (users_to_update ++ (db_users ≫= user_update guild),
   seen_members guild db_users ∪ seen_guild_users).
Proof.
  revert users_to_update seen_guild_users.
  induction db_users as [|u us IH]; intros upd seen.
  - cbn. rewrite app_nil_r. f_equal. unfold seen_members; cbn.
    by rewrite (left_id_L ∅ (∪)).
  - cbn [foldl]. rewrite user_step_eq, IH, seen_members_cons.
    by rewrite <- app_assoc.
Qed.

Lemma user_diff_updated guild db_users :
  updated (user_diff guild db_users) = db_users ≫= user_update guild.
Proof. unfold user_diff. by rewrite foldl_user_step. Qed.

Lemma user_diff_created guild db_users :
  created (user_diff guild db_users) =
  new_user <$> filter (λ m, member_id m ∉ seen_members guild db_users)
                      (g_members guild).
Proof.
  unfold user_diff. rewrite foldl_user_step; simpl.
  by rewrite (right_id_L ∅ (∪)).
Qed.

Lemma user_diff_deleted guild db_users :
  deleted (user_diff guild db_users) = None.
Proof. unfold user_diff. by rewrite foldl_user_step. Qed.

Lemma new_user_ids (ms : list Member) :
  user_partition_ids (new_user <$> ms) = member_id <$> ms.
Proof.
  unfold user_partition_ids.
  induction ms as [|m ms IH]; csimpl; [done|]. by rewrite IH.
Qed.

Lemma created_ids guild db_users :
  user_partition_ids (created (user_diff guild db_users)) =
  member_id <$> filter (λ m, member_id m ∉ seen_members guild db_users)
                       (g_members guild).
Proof. by rewrite user_diff_created, new_user_ids. Qed.

Lemma user_update_ids guild u :
  omap dict_id (user_update guild u) =
  match user_update guild u with [] => [] | _ :: _ => [db_id u] end.
Proof.
  unfold user_update. destruct (updated_fields_of guild u); [done|].
  cbn [omap list_omap]. by rewrite dict_id_set.
Qed.

Lemma updated_ids_sublist guild db_users :
  user_partition_ids (updated (user_diff guild db_users))
    `sublist_of` (db_id <$> db_users).
Proof.
  rewrite user_diff_updated. unfold user_partition_ids.
  induction db_users as [|u us IH]; simpl; [done|].
  rewrite omap_app, user_update_ids.
  destruct (user_update guild u); simpl.
  - by apply sublist_cons.
  - by apply sublist_skip.
Qed.

Lemma user_diff_ids_NoDup guild db_users :
  NoDup (member_id <$> g_members guild) →
  NoDup (db_id <$> db_users) →
  NoDup (diff_ids user_partition_ids (user_diff guild db_users)).
Proof.
  intros Hm Hu. unfold diff_ids.
  rewrite user_diff_deleted; simpl. rewrite app_nil_r, NoDup_app. split_and!.
  - rewrite created_ids. eapply sublist_NoDup; [exact Hm|].
    apply fmap_sublist, sublist_filter.
  - intros i. rewrite created_ids, list_elem_of_fmap.
    intros (m & -> & [Hseen Hin]%list_elem_of_filter) Hupd.
    apply (λ H, elem_of_sublist _ _ _ H (updated_ids_sublist _ _)) in Hupd.
    apply list_elem_of_fmap in Hupd as (u & Heq & Hu').
    apply Hseen, elem_of_seen_members.
    destruct (get_member guild (db_id u)) as [m'|] eqn:E.
    + exists u, m'. destruct (get_member_Some _ _ _ E) as [Hid _].
      split_and!; [done..|congruence].
    + rewrite get_member_None in E. by destruct (E m Hin).
  - eapply sublist_NoDup; [done|apply updated_ids_sublist].
Qed.

(** C3: when no two entities of a snapshot share an id, the ids of the
    [created], [updated] and [deleted] partitions of the diff, listed one
    after the other, have no repetition: every id is in at most one
    partition.  This holds for the role diff and for the user diff (whose
    [deleted] is absent, and whose entries all carry an id). *)
Theorem diff_partitions_exclusive :
  (∀ L B : gset _Role,
     unique_ids L → unique_ids B →
     NoDup (diff_ids role_partition_ids (role_diff L B))) ∧
  (∀ guild db_users,
     NoDup (member_id <$> g_members guild) →
     NoDup (db_id <$> db_users) →
     NoDup (diff_ids user_partition_ids (user_diff guild db_users)) ∧
     Forall (λ d, is_Some (dict_id d))
            (created (user_diff guild db_users) ++
             updated (user_diff guild db_users))).
Proof.
  split; [apply role_diff_ids_NoDup|].
  intros guild db_users Hm Hu. split; [by apply user_diff_ids_NoDup|].
  rewrite Forall_app, user_diff_created, user_diff_updated. split.
  - apply Forall_fmap, Forall_forall. intros m _. by eexists.
  - apply Forall_forall. intros d (u & Hd & _)%list_elem_of_bind.
    unfold user_update in Hd.
    destruct (updated_fields_of guild u); [by apply elem_of_nil in Hd|].
    apply list_elem_of_singleton in Hd as ->. by rewrite dict_id_set.
Qed.

Lemma user_update_absent guild db_user :
  (∀ m, m ∈ g_members guild → member_id m ≠ db_id db_user) →
  user_update guild db_user =
  if db_in_guild db_user
  then [[("in_guild", VBool false); ("id", VInt (db_id db_user))]]
  else [].
Proof.
  intros Habsent%get_member_None. unfold user_update, updated_fields_of.
  rewrite Habsent. by destruct (db_in_guild db_user).
Qed.

(** C4: a site user whose id matches no live member contributes to
    [updated], at its place in the sequence, exactly one partial update
    made of [in_guild = False] and the id when its [in_guild] is true, and
    nothing when its [in_guild] is already false. *)
Theorem user_leave_detection guild (before after : list DbUser) db_user :
  (∀ m, m ∈ g_members guild → member_id m ≠ db_id db_user) →
  updated (user_diff guild (before ++ db_user :: after)) =
  updated (user_diff guild before) ++
  (if db_in_guild db_user
   then [[("in_guild", VBool false); ("id", VInt (db_id db_user))]]
   else []) ++
  updated (user_diff guild after).
Proof.
  intros Habsent. rewrite !user_diff_updated, bind_app, bind_cons.
  by rewrite (user_update_absent _ _ Habsent).
Qed.

Lemma seen_members_spec guild db_users i :
  i ∈ seen_members guild db_users ↔
  i ∈ db_id <$> db_users ∧ i ∈ member_id <$> g_members guild.
Proof.
  rewrite elem_of_seen_members, !list_elem_of_fmap. split.
  - intros (u & m & Hu & Hm & <-).
    destruct (get_member_Some _ _ _ Hm) as [Hid Hin]. split; eauto.
  - intros [(u & -> & Hu) (m & Hid & Hm)].
    destruct (get_member guild (db_id u)) as [m'|] eqn:E.
    + exists u, m'. by destruct (get_member_Some _ _ _ E).
    + rewrite get_member_None in E. by destruct (E m Hm).
Qed.

(** C5: a live member whose id is the id of no site user has its full
    record (id, name, discriminator, roles, [in_guild = True]) in
    [created]; when the id of a live member is the id of some site user, no
    entry of [created] carries that id. *)
Theorem user_join_detection guild db_users member :
  member ∈ g_members guild →
  (member_id member ∉ db_id <$> db_users →
   [("id", VInt (member_id member));
    ("name", VStr (member_name member));
    ("discriminator", VInt (member_discriminator member));
    ("roles", VIds (gr_id <$> member_roles member));
    ("in_guild", VBool true)] ∈ created (user_diff guild db_users)) ∧
  (member_id member ∈ db_id <$> db_users →
   ∀ d, d ∈ created (user_diff guild db_users) →
        dict_id d ≠ Some (member_id member)).
Proof.
  intros Hmem. rewrite user_diff_created. split.
  - intros Hnew. apply (list_elem_of_fmap_2 new_user), list_elem_of_filter.
    split; [|done]. rewrite seen_members_spec. tauto.
  - intros Hold d (m & -> & [Hseen _]%list_elem_of_filter)%list_elem_of_fmap.
    rewrite dict_id_new_user. intros [= Heq]. apply Hseen.
    rewrite Heq, seen_members_spec. split; [done|].
    by apply list_elem_of_fmap_2.
Qed.

(** ** Running computations *)

Lemma bind_run {A B} (m : M A) (f : A → M B) api w :
  (m ≫= f) api w =
  match m api w with
  | (Ok a, w') => f a api w'
  | (Raise e, w') => (Raise e, w')
  | (OutOfFuel, w') => (OutOfFuel, w')
  end.
Proof. reflexivity. Qed.

Lemma log_line_run line api w : log_line line api w = (Ok (), add_log [line] w).
Proof. reflexivity. Qed.

Lemma request_run c api w :
  request c api w =
  (match api (calls w) c with inl e => Raise e | inr r => Ok r end,
   set_calls (calls w ++ [c]) w).
Proof. unfold request. by destruct (api (calls w) c). Qed.

Lemma issue_app api hist cs1 cs2 :
  issue api hist (cs1 ++ cs2) =
  match issue api hist cs1 with
  | (hist', None) => issue api hist' cs2
  | (hist', Some e) => (hist', Some e)
  end.
Proof.
  revert hist. induction cs1 as [|c cs1 IH]; intros hist; simpl; [done|].
  destruct (api hist c); [done|apply IH].
Qed.

(** What was issued is an initial segment of the list: all of it when
    nothing failed, and up to the failing request otherwise. *)
Lemma issue_prefix api hist cs :
  ∃ n, (issue api hist cs).1 = hist ++ take n cs ∧
       match (issue api hist cs).2 with
       | None => n = length cs
       | Some e =>
           ∃ c, cs !! (pred n) = Some c ∧ 0 < n ≤ length cs ∧
                api (hist ++ take (pred n) cs) c = inl e
       end%nat.
Proof.
  revert hist. induction cs as [|c cs IH]; intros hist; simpl.
  - exists 0%nat. by rewrite app_nil_r.
  - destruct (api hist c) as [e|r] eqn:E; simpl.
    + exists 1%nat. split; [done|]. exists c. simpl. rewrite app_nil_r.
      split_and!; [done|lia|lia|done].
    + destruct (IH (hist ++ [c])) as (n & Hcalls & Herr).
      exists (S n). rewrite Hcalls, <- app_assoc. split; [done|].
      destruct (issue api (hist ++ [c]) cs).2; [|by f_equal].
      destruct Herr as (c' & Hc' & Hn & Hfail). exists c'.
      destruct n as [|n]; [lia|]. simpl in *.
      rewrite <- app_assoc in Hfail. split_and!; [done|lia|lia|done].
Qed.

Lemma for_each_request {A} (mk : A → Call) (xs : list A) api w :
  for_each xs (λ x, request (mk x);; mret ()) api w =
  (result_of (issue api (calls w) (mk <$> xs)).2,
   set_calls (issue api (calls w) (mk <$> xs)).1 w).
Proof.
  revert w. induction xs as [|x xs IH]; intros w.
  - by destruct w.
  - cbn [for_each fmap list_fmap issue]. rewrite !bind_run, request_run.
    destruct (api (calls w) (mk x)); [done|].
    cbn [mret M_ret]. by rewrite IH.
Qed.

Create HintDb orderly.

Lemma orderly_mret {A} (a : A) : orderly (mret a).
Proof.
  intros api w. split; [done|]. exists []. by rewrite app_nil_r.
Qed.

Lemma orderly_raise_other {A} kind : orderly (raise (A:=A) (OtherError kind)).
Proof.
  intros api w. split; [done|]. exists []. rewrite app_nil_r.
  split; [done|]. by intros e [= <-].
Qed.

Lemma orderly_out_of_fuel {A} : orderly (out_of_fuel (A:=A)).
Proof.
  intros api w. split; [done|]. exists []. by rewrite app_nil_r.
Qed.

Lemma orderly_log_line line : orderly (log_line line).
Proof.
  intros api w. split; [done|]. exists []. by rewrite app_nil_r.
Qed.

Lemma orderly_request c : orderly (request c).
Proof.
  intros api w. rewrite request_run. split; [done|]. exists [c].
  split; [done|]. intros e He _. exists [], c. rewrite app_nil_r.
  split; [done|]. simpl in He. by destruct (api (calls w) c); simplify_eq.
Qed.

Lemma orderly_bind {A B} (m : M A) (f : A → M B) :
  orderly m → (∀ a, orderly (f a)) → orderly (m ≫= f).
Proof.
  intros Hm Hf api w. rewrite bind_run.
  destruct (Hm api w) as (Hmsg & cs & Hcs & Hraise).
  destruct (m api w) as [[a|e|] w1]; simpl in *.
  - destruct (Hf a api w1) as (Hmsg' & cs' & Hcs' & Hraise').
    split; [congruence|]. exists (cs ++ cs').
    split; [by rewrite Hcs', Hcs, app_assoc|].
    intros e He Hrce. destruct (Hraise' e He Hrce) as (pre & c & -> & Hfail).
    exists (cs ++ pre), c. rewrite Hcs, <- !app_assoc in *. done.
  - split; [done|]. exists cs. split; [done|]. intros e' [= <-]. by apply Hraise.
  - split; [done|]. exists cs. split; [done|]. by intros e' [=].
Qed.

Lemma orderly_for_each {A} (xs : list A) (f : A → M ()) :
  (∀ x, orderly (f x)) → orderly (for_each xs f).
Proof.
  intros Hf. induction xs as [|x xs IH]; simpl.
  - apply orderly_mret.
  - apply orderly_bind; [apply Hf|by intros _].
Qed.

#[global] Hint Resolve orderly_mret orderly_raise_other orderly_out_of_fuel
  orderly_log_line orderly_request orderly_for_each : orderly.
#[global] Hint Extern 2 (orderly (_ ≫= _)) =>
  apply orderly_bind; [|intros ?] : orderly.
#[global] Hint Extern 1 (orderly (match ?x with _ => _ end)) =>
  destruct x : orderly.
#[global] Hint Extern 1 (orderly (log_trace _)) => apply orderly_log_line : orderly.

Lemma orderly_RoleSyncer_get_diff guild : orderly (RoleSyncer_get_diff guild).
Proof. unfold RoleSyncer_get_diff. auto 10 with orderly. Qed.

Lemma orderly_RoleSyncer_sync diff : orderly (RoleSyncer_sync diff).
Proof. unfold RoleSyncer_sync. auto 12 with orderly. Qed.

Lemma orderly_get_users_from fuel page : orderly (_get_users_from fuel page).
Proof.
  revert page. induction fuel as [|fuel IH]; intros [p|]; simpl;
    auto 10 with orderly.
Qed.

Lemma orderly_UserSyncer_get_diff fuel guild :
  orderly (UserSyncer_get_diff fuel guild).
Proof.
  unfold UserSyncer_get_diff, _get_users.
  auto using orderly_get_users_from with orderly.
Qed.

Lemma orderly_UserSyncer_sync diff : orderly (UserSyncer_sync diff).
Proof. unfold UserSyncer_sync. auto 12 with orderly. Qed.

Lemma orderly_get_diff k fuel guild :
  orderly (_get_diff (syncer_of k) fuel guild).
Proof.
  destruct k; [apply orderly_RoleSyncer_get_diff|apply orderly_UserSyncer_get_diff].
Qed.

Lemma orderly_sync k diff : orderly (_sync (syncer_of k) diff).
Proof.
  destruct k; [apply orderly_RoleSyncer_sync|apply orderly_UserSyncer_sync].
Qed.

(** ** The driver *)

Lemma sync_run {D} `{Len D} (self : Syncer D) fuel guild ctx api w :
  sync self fuel guild ctx api w =
  match _get_diff self fuel guild api (started self ctx w) with
  | (Ok diff, w1) =>
      match _sync self diff api w1 with
      | (Ok _, w2) =>
          (Ok (),
           finish ctx (length (messages w))
             (complete_content (name self) (results_of diff))
             (add_log ["INFO " +:+ name self +:+ " syncer finished: " +:+
                       results_of diff +:+ "."] w2))
      | (Raise (ResponseCodeError status response_json), w2) =>
          (Ok (),
           finish ctx (length (messages w))
             (failed_content (name self) status response_json)
             (add_log ["ERROR " +:+ name self +:+ " syncer failed!"] w2))
      | (Raise e, w2) => (Raise e, w2)
      | (OutOfFuel, w2) => (OutOfFuel, w2)
      end
  | (Raise e, w1) => (Raise e, w1)
  | (OutOfFuel, w1) => (OutOfFuel, w1)
  end.
Proof.
  unfold sync, started, finish, add_log, log_info, log_exception, log_line,
    try_ResponseCodeError, ctx_send, message_edit, start_notice.
  unfold fmap, M_fmap, mbind, M_bind, mret, M_ret.
  destruct ctx; cbn [calls messages log];
    (destruct (_get_diff self fuel guild api _) as [[diff|e|] w1]; [|done..]);
    by destruct (_sync self diff api w1) as [[[]|[status js|kind]|] w2].
Qed.

Lemma string_app_assoc (a b c : string) : (a +:+ b) +:+ c = a +:+ b +:+ c.
Proof.
  induction a as [|x a IH]; [done|].
  change (String x ((a +:+ b) +:+ c) = String x (a +:+ b +:+ c)).
  by rewrite IH.
Qed.

Lemma finish_messages k ctx content lines (w w2 : World) :
  messages w2 = messages (started (syncer_of k) ctx w) →
  messages (finish ctx (length (messages w)) content (add_log lines w2)) =
  reported ctx content w.
Proof.
  unfold finish, reported, started. destruct ctx; simpl; [|done].
  intros ->. rewrite insert_app_r_alt, Nat.sub_diag by lia. done.
Qed.

Lemma finish_calls ctx message content lines (w2 : World) :
  calls (finish ctx message content (add_log lines w2)) = calls w2.
Proof. by destruct ctx. Qed.

(** The sink is not touched between the start of a run and the end of its
    diff and apply phases. *)
Lemma get_diff_messages k fuel guild api w0 r w1 :
  _get_diff (syncer_of k) fuel guild api w0 = (r, w1) → messages w1 = messages w0.
Proof.
  intros Hrun. destruct (orderly_get_diff k fuel guild api w0) as [Hmsg _].
  by rewrite Hrun in Hmsg.
Qed.

Lemma sync_messages k diff api w1 r w2 :
  _sync (syncer_of k) diff api w1 = (r, w2) → messages w2 = messages w1.
Proof.
  intros Hrun. destruct (orderly_sync k diff api w1) as [Hmsg _].
  by rewrite Hrun in Hmsg.
Qed.

(** C1, as amended: [sync] propagates an error to its caller exactly when
    the error was raised while the diff was computed (whatever the error,
    a [ResponseCodeError] of a read or pagination request included) or
    was raised by the apply phase and is not a [ResponseCodeError].  A
    propagated error is not reported: the sink is as it was when the run
    started.  A [ResponseCodeError] raised by the apply phase is caught:
    [sync] returns normally and the sink shows the failure text. *)
Theorem sync_propagation (k : kind) fuel guild ctx api w :
  let self := syncer_of k in
  let w0 := started self ctx w in
  (∀ e w', sync self fuel guild ctx api w = (Raise e, w') ↔
     _get_diff self fuel guild api w0 = (Raise e, w') ∨
     ∃ diff w1, _get_diff self fuel guild api w0 = (Ok diff, w1) ∧
                _sync self diff api w1 = (Raise e, w') ∧
                is_ResponseCodeError e = false) ∧
  (∀ e w', sync self fuel guild ctx api w = (Raise e, w') →
           messages w' = messages w0) ∧
  (∀ diff w1 status response_json w2,
     _get_diff self fuel guild api w0 = (Ok diff, w1) →
     _sync self diff api w1 =
       (Raise (ResponseCodeError status response_json), w2) →
     ∃ w3, sync self fuel guild ctx api w = (Ok (), w3) ∧
           messages w3 =
             reported ctx (failed_content (name self) status response_json) w).
Proof.
  intros self w0. subst self w0.
  set (self := syncer_of k). set (w0 := started self ctx w).
  assert (∀ e w', sync self fuel guild ctx api w = (Raise e, w') ↔
     _get_diff self fuel guild api w0 = (Raise e, w') ∨
     ∃ diff w1, _get_diff self fuel guild api w0 = (Ok diff, w1) ∧
                _sync self diff api w1 = (Raise e, w') ∧
                is_ResponseCodeError e = false) as Hiff.
  { intros e w'. rewrite sync_run. fold w0.
    destruct (_get_diff self fuel guild api w0) as [[diff|e1|] w1] eqn:Hd.
    - destruct (_sync self diff api w1) as [[[]|[status js|kind]|] w2] eqn:Hs.
      + split; [done|]. intros [|(? & ? & ? & ? & ?)]; congruence.
      + split; [done|]. intros [|(? & ? & ? & Hs' & Hrce)]; simplify_eq.
        rewrite Hs in Hs'. by simplify_eq.
      + split.
        * intros [= <- <-]. right. by exists diff, w1.
        * intros [|(? & ? & ? & ? & ?)]; congruence.
      + split; [done|]. intros [|(? & ? & ? & ? & ?)]; congruence.
    - split; [intros [= <- <-]; by left|].
      intros [|(? & ? & ? & ? & ?)]; congruence.
    - split; [done|]. intros [|(? & ? & ? & ? & ?)]; congruence. }
  split_and!; [done| |].
  - intros e w' [Hd|(diff & w1 & Hd & Hs & _)]%Hiff.
    + by apply get_diff_messages in Hd.
    + apply get_diff_messages in Hd. apply sync_messages in Hs.
      by rewrite Hs, Hd.
  - intros diff w1 status js w2 Hd Hs. rewrite sync_run. fold w0.
    rewrite Hd, Hs. eexists; split; [done|].
    apply (finish_messages k).
    apply get_diff_messages in Hd. apply sync_messages in Hs.
    by rewrite Hs, Hd.
Qed.

(** ** What the diff computers return *)

Lemma RoleSyncer_get_diff_run guild api w :
  RoleSyncer_get_diff guild api w =
  (match api (calls w) get_roles with
   | inl e => Raise e
   | inr (RolesJson roles) =>
       Ok (role_diff (list_to_set (role_of_guild <$> g_roles guild))
                     (list_to_set roles))
   | inr _ => Raise (OtherError "TypeError")
   end,
   set_calls (calls w ++ [get_roles])
             (add_log ["TRACE Getting the diff for roles."] w)).
Proof.
  unfold RoleSyncer_get_diff, log_trace.
  rewrite bind_run, log_line_run, bind_run, request_run.
  cbn [calls add_log]. by destruct (api (calls w) get_roles) as [e|[]].
Qed.

Lemma RoleSyncer_get_diff_Ok guild api w diff w1 :
  RoleSyncer_get_diff guild api w = (Ok diff, w1) →
  ∃ L B, diff = role_diff L B.
Proof.
  rewrite RoleSyncer_get_diff_run.
  destruct (api (calls w) get_roles) as [e|[]]; intros [= <- <-]. eauto.
Qed.

Lemma UserSyncer_get_diff_Ok fuel guild api w diff w1 :
  UserSyncer_get_diff fuel guild api w = (Ok diff, w1) →
  ∃ db_users,
    diff = user_diff guild db_users ∧
    _get_users fuel api (add_log ["TRACE Getting the diff for users."] w) =
      (Ok db_users, w1).
Proof.
  unfold UserSyncer_get_diff, log_trace.
  rewrite bind_run, log_line_run, bind_run.
  destruct (_get_users fuel api _) as [[db_users|e|] w']; intros [= <- <-].
  by exists db_users.
Qed.

Lemma results_of_eq {D} `{Len D} (c u : D) (d : option D) :
  results_of (Diff c u d) =
  "created `" +:+ pretty (len c) +:+ "`, updated `" +:+ pretty (len u) +:+
  "`" +:+ match d with
          | Some x => ", deleted `" +:+ pretty (len x) +:+ "`"
          | None => ""
          end.
Proof.
  unfold results_of, _asdict.
  destruct d as [x|]; cbn [omap list_omap fmap option_fmap option_map
                           created updated deleted String.concat].
  - change ("created" +:+ " `" +:+ pretty (len c) +:+ "`")
      with ("created `" +:+ pretty (len c) +:+ "`").
    change ("updated" +:+ " `" +:+ pretty (len u) +:+ "`")
      with ("updated `" +:+ pretty (len u) +:+ "`").
    by rewrite !string_app_assoc.
  - change ("created" +:+ " `" +:+ pretty (len c) +:+ "`")
      with ("created `" +:+ pretty (len c) +:+ "`").
    change ("updated" +:+ " `" +:+ pretty (len u) +:+ "`")
      with ("updated `" +:+ pretty (len u) +:+ "`").
    by rewrite !string_app_assoc.
Qed.

(** C8: the message of a successful run has one term per partition that
    is not [None], with its number of entries, in the order created,
    updated, deleted.  The diff of the role syncer always has a [deleted]
    set, reported as [deleted `0`] when it is empty; the diff of the user
    syncer never has one, so its message has no [deleted] term. *)
Theorem sync_result_message :
  (∀ D (HL : Len D) (c u : D) (d : option D),
     results_of (Diff c u d) =
     "created `" +:+ pretty (len c) +:+ "`, updated `" +:+ pretty (len u) +:+
     "`" +:+ match d with
             | Some x => ", deleted `" +:+ pretty (len x) +:+ "`"
             | None => ""
             end) ∧
  (∀ k fuel guild ctx api w diff w1 w2,
     _get_diff (syncer_of k) fuel guild api (started (syncer_of k) ctx w) =
       (Ok diff, w1) →
     _sync (syncer_of k) diff api w1 = (Ok (), w2) →
     ∃ w3, sync (syncer_of k) fuel guild ctx api w = (Ok (), w3) ∧
           messages w3 =
             reported ctx
               (":ok_hand: Synchronisation of " +:+ name (syncer_of k) +:+
                "s complete: " +:+ results_of diff) w) ∧
  (∀ guild api w diff w1,
     RoleSyncer_get_diff guild api w = (Ok diff, w1) →
     ∃ X, deleted diff = Some X ∧
          (X = ∅ →
           results_of diff =
           "created `" +:+ pretty (size (created diff)) +:+ "`, updated `" +:+
           pretty (size (updated diff)) +:+ "`, deleted `0`")) ∧
  (∀ fuel guild api w diff w1,
     UserSyncer_get_diff fuel guild api w = (Ok diff, w1) →
     deleted diff = None ∧
     results_of diff =
     "created `" +:+ pretty (length (created diff)) +:+ "`, updated `" +:+
     pretty (length (updated diff)) +:+ "`").
Proof.
  split_and!.
  - intros. apply results_of_eq.
  - intros k fuel guild ctx api w diff w1 w2 Hd Hs.
    rewrite sync_run, Hd, Hs. eexists; split; [done|].
    apply (finish_messages k).
    apply get_diff_messages in Hd. apply sync_messages in Hs.
    by rewrite Hs, Hd.
  - intros guild api w diff w1 (L & B & ->)%RoleSyncer_get_diff_Ok.
    destruct (role_diff_deleted L B) as (X & HX & _). exists X.
    split; [done|]. intros ->. destruct (role_diff L B) as [c u d].
    simpl in HX. subst d. by rewrite results_of_eq.
  - intros fuel guild api w diff w1 (us & -> & _)%UserSyncer_get_diff_Ok.
    rewrite user_diff_deleted. split; [done|].
    pose proof (user_diff_deleted guild us) as Hnone.
    destruct (user_diff guild us) as [c u d]. simpl in Hnone. subst d.
    by rewrite results_of_eq.
Qed.

(** ** Pagination *)

Lemma get_users_from_serves api pages :
  ∀ fuel w cursor,
    cursor ≠ 0 →
    serves api (calls w) cursor pages →
    (length pages ≤ fuel)%nat →
    _get_users_from fuel (Some cursor) api w =
    (Ok (concat (fst <$> pages)),
     set_calls (calls w ++
                (get_users_page <$>
                 cursor :: omap snd (take (length pages - 1) pages))) w).
Proof.
  induction pages as [|[results next_page_no] rest IH];
    intros fuel w cursor Hcursor Hserves Hfuel; [done|].
  destruct Hserves as [Hpage Hrest].
  destruct fuel as [|fuel]; [simpl in Hfuel; lia|].
  cbn [_get_users_from]. rewrite decide_False by done.
  rewrite bind_run, request_run, Hpage, bind_run.
  destruct rest as [|page rest].
  - assert (_get_users_from fuel next_page_no api
              (set_calls (calls w ++ [get_users_page cursor]) w) =
            (Ok [], set_calls (calls w ++ [get_users_page cursor]) w)) as ->.
    { destruct Hrest as [-> | ->]; by destruct fuel. }
    done.
  - destruct Hrest as (next & -> & Hnext & Hrest).
    rewrite (IH fuel (set_calls (calls w ++ [get_users_page cursor]) w)
                next Hnext Hrest) by (simpl in *; lia).
    cbn [mret M_ret]. f_equal.
    unfold set_calls; cbn [calls messages log length Nat.sub].
    rewrite Nat.sub_0_r, <- app_assoc. cbn [take omap list_omap snd].
    done.
Qed.

(** C6: when the site serves a finite page sequence whose last page ends
    the stream, [_get_users], given at least as many turns as there are
    pages, returns the results of all the pages in page order, after
    requesting cursor 1 and then the [next_page_no] of every page but
    the last, in order, and nothing else. *)
Theorem get_users_follows_pages api w pages fuel :
  serves api (calls w) 1 pages →
  (length pages ≤ fuel)%nat →
  _get_users fuel api w =
  (Ok (concat (fst <$> pages)),
   set_calls (calls w ++
              (get_users_page <$>
               1 :: omap snd (take (length pages - 1) pages))) w).
Proof. intros. by apply get_users_from_serves. Qed.

(** ** The apply phases *)

Lemma issue_take api hist cs :
  ∃ n, (issue api hist cs).1 = hist ++ take n cs ∧
       ((issue api hist cs).2 = None → take n cs = cs).
Proof.
  destruct (issue_prefix api hist cs) as (n & Hcalls & Herr).
  exists n. split; [done|]. intros Hnone. rewrite Hnone in Herr.
  subst n. apply firstn_all.
Qed.

Lemma RoleSyncer_sync_run diff api w :
  calls (RoleSyncer_sync diff api w).2 =
    (issue api (calls w) (role_requests diff)).1 ∧
  ((RoleSyncer_sync diff api w).1 = Ok () →
   (issue api (calls w) (role_requests diff)).2 = None).
Proof.
  unfold RoleSyncer_sync, role_requests, log_trace.
  rewrite issue_app.
  rewrite bind_run, log_line_run, bind_run, for_each_request. cbn [calls add_log].
  destruct (issue api (calls w) (post_role <$> elements (created diff)))
    as [hist1 [e|]]; cbn [result_of fst snd calls set_calls];
    [split; [done|by intros [=]]|].
  rewrite issue_app, bind_run, log_line_run, bind_run, for_each_request.
  cbn [calls add_log set_calls].
  destruct (issue api hist1 (put_role <$> elements (updated diff)))
    as [hist2 [e|]]; cbn [result_of fst snd calls set_calls];
    [split; [done|by intros [=]]|].
  rewrite bind_run, log_line_run.
  destruct (deleted diff) as [roles|]; cbn [from_option fmap list_fmap issue];
    [|split; [done|by intros [=]]].
  rewrite for_each_request. cbn [calls add_log set_calls].
  destruct (issue api hist2 (delete_role <$> elements roles))
    as [hist3 [e|]]; (split; [done|]); [by intros [=]|done].
Qed.

Lemma role_requests_lookup diff i c :
  role_requests diff !! i = Some c →
  (i < size (created diff) ∧ method c = POST)%nat ∨
  (size (created diff) ≤ i < size (created diff) + size (updated diff) ∧
   method c = PUT)%nat ∨
  (size (created diff) + size (updated diff) ≤ i ∧ method c = DELETE)%nat.
Proof.
  unfold role_requests. intros Hi.
  assert (length (post_role <$> elements (created diff)) = size (created diff))
    as Hposts by by rewrite length_fmap.
  assert (length (put_role <$> elements (updated diff)) = size (updated diff))
    as Hputs by by rewrite length_fmap.
  apply lookup_app_Some in Hi as [Hi|[Hge Hi]].
  - left. apply lookup_lt_Some in Hi as Hlt.
    apply list_lookup_fmap_Some in Hi as (r & -> & _). split; [lia|done].
  - apply lookup_app_Some in Hi as [Hi|[Hge' Hi]].
    + right; left. apply lookup_lt_Some in Hi as Hlt.
      apply list_lookup_fmap_Some in Hi as (r & -> & _). split; [lia|done].
    + right; right.
      apply list_lookup_fmap_Some in Hi as (r & -> & _). split; [lia|done].
Qed.

(** C9: the requests [RoleSyncer._sync] issues are an initial segment of
    the list made of one POST per created role, then one PUT per updated
    role, then one DELETE per deleted role (the whole list when it
    returns normally); so every POST comes before every PUT and every
    DELETE, and every PUT before every DELETE. *)
Theorem role_sync_order diff api w :
  ∃ issued,
    calls (RoleSyncer_sync diff api w).2 = calls w ++ issued ∧
    issued `prefix_of`
      (post_role <$> elements (created diff)) ++
      (put_role <$> elements (updated diff)) ++
      (delete_role <$> from_option elements [] (deleted diff)) ∧
    ((RoleSyncer_sync diff api w).1 = Ok () →
     issued =
       (post_role <$> elements (created diff)) ++
       (put_role <$> elements (updated diff)) ++
       (delete_role <$> from_option elements [] (deleted diff))) ∧
    (∀ i j ci cj,
       issued !! i = Some ci → issued !! j = Some cj →
       (method ci = POST ∧ method cj = PUT) ∨
       (method ci = POST ∧ method cj = DELETE) ∨
       (method ci = PUT ∧ method cj = DELETE) →
       (i < j)%nat).
Proof.
  destruct (RoleSyncer_sync_run diff api w) as [Hcalls Hok].
  destruct (issue_take api (calls w) (role_requests diff)) as (n & Hn & Hall).
  exists (take n (role_requests diff)). split_and!.
  - by rewrite Hcalls, Hn.
  - apply prefix_take.
  - intros Hres. by apply Hall, Hok.
  - intros i j ci cj Hi Hj Hmethods.
    apply lookup_take_Some in Hi as [Hi _].
    apply lookup_take_Some in Hj as [Hj _].
    apply role_requests_lookup in Hi, Hj. simpl in Hi, Hj.
    destruct Hmethods as [[Hci Hcj]|[[Hci Hcj]|[Hci Hcj]]];
      rewrite Hci in Hi; rewrite Hcj in Hj;
      destruct Hi as [[? ?]|[[? ?]|[? ?]]]; try done;
      destruct Hj as [[? ?]|[[? ?]|[? ?]]]; try done; lia.
Qed.

Lemma optional_request (mk : list dict → Call) (l : list dict) api w :
  match l with
  | [] => mret ()
  | _ :: _ => request (mk l);; mret ()
  end api w =
  (result_of
     (issue api (calls w) (if bool_decide (l ≠ []) then [mk l] else [])).2,
   set_calls
     (issue api (calls w) (if bool_decide (l ≠ []) then [mk l] else [])).1 w).
Proof.
  destruct l as [|x l].
  - rewrite bool_decide_eq_false_2 by (by intros Hne). by destruct w.
  - rewrite bool_decide_eq_true_2 by done. cbn [issue].
    rewrite bind_run, request_run. by destruct (api (calls w) (mk (x :: l))).
Qed.

Lemma UserSyncer_sync_run diff api w :
  calls (UserSyncer_sync diff api w).2 =
    (issue api (calls w) (user_requests diff)).1 ∧
  ((UserSyncer_sync diff api w).1 = Ok () →
   (issue api (calls w) (user_requests diff)).2 = None).
Proof.
  unfold UserSyncer_sync, user_requests, log_trace.
  rewrite issue_app, bind_run, log_line_run, bind_run.
  rewrite (optional_request post_users). cbn [calls add_log].
  destruct (issue api (calls w) _) as [hist1 [e|]];
    cbn [result_of fst snd calls set_calls];
    [split; [done|by intros [=]]|].
  rewrite bind_run, log_line_run, (optional_request patch_users).
  cbn [calls add_log set_calls].
  destruct (issue api hist1 _) as [hist2 [e|]]; (split; [done|]);
    [by intros [=]|done].
Qed.

(** C10: [UserSyncer._sync] issues the batched POST only for a non-empty
    [created], the bulk PATCH only for a non-empty [updated], at most one
    of each and in that order, both when it returns normally with both
    lists non-empty; with both lists empty it issues no request. *)
Theorem user_sync_requests diff api w :
  ∃ issued,
    calls (UserSyncer_sync diff api w).2 = calls w ++ issued ∧
    issued `prefix_of`
      (if bool_decide (created diff ≠ []) then [post_users (created diff)]
       else []) ++
      (if bool_decide (updated diff ≠ []) then [patch_users (updated diff)]
       else []) ∧
    ((UserSyncer_sync diff api w).1 = Ok () →
     issued =
       (if bool_decide (created diff ≠ []) then [post_users (created diff)]
        else []) ++
       (if bool_decide (updated diff ≠ []) then [patch_users (updated diff)]
        else [])) ∧
    (∀ c, c ∈ issued → method c = POST → created diff ≠ []) ∧
    (∀ c, c ∈ issued → method c = PATCH → updated diff ≠ []) ∧
    (created diff = [] → updated diff = [] →
     issued = [] ∧ (UserSyncer_sync diff api w).1 = Ok ()).
Proof.
  destruct (UserSyncer_sync_run diff api w) as [Hcalls Hok].
  destruct (issue_take api (calls w) (user_requests diff)) as (n & Hn & Hall).
  exists (take n (user_requests diff)).
  assert (∀ c, c ∈ take n (user_requests diff) → c ∈ user_requests diff) as Hin.
  { intros c. apply subseteq_take. }
  split_and!.
  - by rewrite Hcalls, Hn.
  - apply prefix_take.
  - intros Hres. by apply Hall, Hok.
  - intros c Hc%Hin Hpost. unfold user_requests in Hc.
    apply elem_of_app in Hc as [Hc|Hc]; case_bool_decide as Hne; try done;
      try (by apply elem_of_nil in Hc);
      apply list_elem_of_singleton in Hc as ->; discriminate Hpost.
  - intros c Hc%Hin Hpatch. unfold user_requests in Hc.
    apply elem_of_app in Hc as [Hc|Hc]; case_bool_decide as Hne; try done;
      try (by apply elem_of_nil in Hc);
      apply list_elem_of_singleton in Hc as ->; discriminate Hpatch.
  - intros Hc Hu. unfold user_requests. rewrite Hc, Hu.
    split; [by destruct n|].
    unfold UserSyncer_sync. by rewrite Hc, Hu.
Qed.

(** ** A write the site refuses *)






(** * Concrete runs *)

(** A decidable closed proposition, settled by evaluating its decision. *)
Ltac by_evaluation :=
  unfold unique_ids; apply (bool_decide_unpack _); vm_compute; exact I.


Lemma diff_partitions_exclusive_witness :
  NoDup (diff_ids role_partition_ids
           (role_diff (list_to_set (role_of_guild <$> g_roles Sample.guild))
                      (list_to_set Sample.site_roles))) ∧
  NoDup (diff_ids user_partition_ids
           (user_diff Sample.guild [Sample.user 9 false; Sample.user 5 true])).
Proof.
  split.
  - apply (proj1 diff_partitions_exclusive);
      by_evaluation.
  - apply (proj2 diff_partitions_exclusive Sample.guild
             [Sample.user 9 false; Sample.user 5 true]);
      by_evaluation.
Defined.

Lemma user_leave_detection_witness :
  updated (user_diff Sample.guild [Sample.user 5 true]) =
  [[("in_guild", VBool false); ("id", VInt 5)]].
Proof.
  apply (user_leave_detection Sample.guild [] [] (Sample.user 5 true)).
  apply (proj1 (Forall_forall (λ m, member_id m ≠ 5) _)).
  by_evaluation.
Defined.

Lemma user_join_detection_witness :
  [("id", VInt 9); ("name", VStr "nine"); ("discriminator", VInt 1234);
   ("roles", VIds [2]); ("in_guild", VBool true)]
  ∈ created (user_diff Sample.guild [Sample.user 1 false; Sample.user 2 false]).
Proof.
  apply (user_join_detection Sample.guild
           [Sample.user 1 false; Sample.user 2 false] Sample.nine).
  - constructor.
  - by_evaluation.
Defined.

Lemma get_users_follows_pages_witness :
  _get_users 2 Sample.site world0 =
  (Ok [Sample.user 1 false; Sample.user 2 false; Sample.user 3 false],
   set_calls [get_users_page 1; get_users_page 2] world0).
Proof.
  apply (get_users_follows_pages Sample.site world0 Sample.pages 2).
  - simpl. split; [reflexivity|]. exists 2. split; [reflexivity|].
    split; [discriminate|]. split; [reflexivity|]. by left.
  - simpl. lia.
Defined.

(** The start notice is all the sink holds when the roles cannot be read. *)
Lemma sync_propagation_witness :
  messages (sync RoleSyncer 0 Sample.guild (Some CommandContext)
              Sample.failing_reads world0).2 =
  ["📊 Synchronising roles."].
Proof.
  apply (proj1 (proj2 (sync_propagation RoleKind 0 Sample.guild
                         (Some CommandContext) Sample.failing_reads world0))
           (ResponseCodeError 500 JNull)).
  vm_compute. reflexivity.
Defined.

(** The roles cannot be read, or the second page of users cannot: the
    [ResponseCodeError] of the read leaves [sync]. *)
Lemma sync_reraises_read_errors :
  (sync RoleSyncer 0 Sample.guild (Some CommandContext)
        Sample.failing_reads world0).1 = Raise (ResponseCodeError 500 JNull) ∧
  (sync UserSyncer 2 Sample.guild (Some CommandContext)
        Sample.failing_reads world0).1 = Raise (ResponseCodeError 500 JNull) ∧
  is_ResponseCodeError (ResponseCodeError 500 JNull) = true.
Proof. split_and!; vm_compute; reflexivity. Qed.



Lemma sync_result_message_witness :
  (∃ w3,
     sync UserSyncer 2 Sample.guild (Some CommandContext) Sample.site world0 =
       (Ok (), w3) ∧
     messages w3 =
       [":ok_hand: Synchronisation of users complete: created `1`, updated `0`"]) ∧
  results_of
    (role_diff (list_to_set (role_of_guild <$> g_roles Sample.guild))
               (list_to_set [Role 1 "admin" 255 8 2])) =
  "created `1`, updated `1`, deleted `0`".
Proof.
  destruct sync_result_message as (_ & Hrun & Hrole & _). split.
  - pose (w0 := started UserSyncer (Some CommandContext) world0).
    pose (diff := user_diff Sample.guild
                    [Sample.user 1 false; Sample.user 2 false; Sample.user 3 false]).
    destruct (Hrun UserKind 2%nat Sample.guild (Some CommandContext) Sample.site
                world0 diff
                (UserSyncer_get_diff 2 Sample.guild Sample.site w0).2
                (UserSyncer_sync diff Sample.site
                   (UserSyncer_get_diff 2 Sample.guild Sample.site w0).2).2)
      as (w3 & Hsync & Hmsg).
    + vm_compute. reflexivity.
    + vm_compute. reflexivity.
    + exists w3. split; [exact Hsync|]. rewrite Hmsg. vm_compute. reflexivity.
  - pose (api := ((λ (hist : list Call) (c : Call),
                     inr (RolesJson [Role 1 "admin" 255 8 2])) : Backend)).
    destruct (Hrole Sample.guild api world0
                (role_diff (list_to_set (role_of_guild <$> g_roles Sample.guild))
                           (list_to_set [Role 1 "admin" 255 8 2]))
                (RoleSyncer_get_diff Sample.guild api world0).2)
      as (X & HX & Hzero).
    + by rewrite RoleSyncer_get_diff_run.
    + rewrite Hzero; [vm_compute; reflexivity|].
      apply (inj Some). rewrite <- HX. vm_compute. reflexivity.
Defined.

(** * Further properties *)

(** ** The role diff as a reconciliation *)

Lemma unique_ids_inj (X : gset _Role) r1 r2 :
  unique_ids X → r1 ∈ X → r2 ∈ X → role_id r1 = role_id r2 → r1 = r2.
Proof.
  intros Hu H1 H2. apply (NoDup_fmap_inj role_id (elements X)); [done|..];
    by apply elem_of_elements.
Qed.

Lemma role_diff_deleted_eq (L B : gset _Role) :
  deleted (role_diff L B) =
  Some (filter (λ role, role_id role ∈
                        (set_map role_id B : gset Z) ∖ set_map role_id L) B).
Proof. reflexivity. Qed.

Lemma role_diff_deleted_elem (L B X : gset _Role) r :
  deleted (role_diff L B) = Some X →
  r ∈ X ↔ r ∈ B ∧ ∀ l, l ∈ L → role_id l ≠ role_id r.
Proof.
  intros HX. destruct (role_diff_deleted L B) as (X' & HX' & Helem).
  rewrite HX in HX'. injection HX' as <-. apply Helem.
Qed.

Lemma same_id_dec (X : gset _Role) (r : _Role) :
  (∃ x, x ∈ X ∧ role_id x = role_id r) ∨ (∀ x, x ∈ X → role_id x ≠ role_id r).
Proof.
  destruct (decide (role_id r ∈ (set_map role_id X : gset Z))) as [Hin|Hout].
  - left. apply elem_of_map in Hin as (x & ? & ?). eauto.
  - right. intros x Hx Heq. apply Hout, elem_of_map. eauto.
Qed.

Lemma role_diff_same (L : gset _Role) : role_diff L L = Diff ∅ ∅ (Some ∅).
Proof.
  assert (created (role_diff L L) = ∅) as Hc.
  { apply set_eq. intros r. rewrite role_diff_created. split.
    - intros [Hr Hn]. by destruct (Hn r Hr).
    - by intros ?%not_elem_of_empty. }
  assert (updated (role_diff L L) = ∅) as Hu.
  { apply set_eq. intros r. rewrite role_diff_updated. split.
    - by intros (Hr & Hn & _).
    - by intros ?%not_elem_of_empty. }
  assert (deleted (role_diff L L) = Some ∅) as Hd.
  { rewrite role_diff_deleted_eq. f_equal. apply set_eq. intros r.
    rewrite elem_of_filter, elem_of_difference. split.
    - by intros [[? ?] _].
    - by intros ?%not_elem_of_empty. }
  destruct (role_diff L L) as [c u d]. simpl in *. by subst.
Qed.

Lemma role_diff_empty_iff (L B : gset _Role) :
  unique_ids B →
  (created (role_diff L B) = ∅ ∧ updated (role_diff L B) = ∅ ∧
   deleted (role_diff L B) = Some ∅) ↔ L = B.
Proof.
  intros HB. split.
  - intros (Hc & Hu & Hd). apply set_eq. intros r. split.
    + intros Hr. destruct (decide (r ∈ B)) as [|Hnot]; [done|].
      destruct (same_id_dec B r) as [(b & Hb & Hid)|Hnone].
      * assert (r ∈ updated (role_diff L B)) as Hin
          by (apply role_diff_updated; eauto).
        rewrite Hu in Hin. by apply not_elem_of_empty in Hin.
      * assert (r ∈ created (role_diff L B)) as Hin
          by (by apply role_diff_created).
        rewrite Hc in Hin. by apply not_elem_of_empty in Hin.
    + intros Hr. destruct (same_id_dec L r) as [(l & Hl & Hid)|Hnone].
      * destruct (decide (l ∈ B)) as [HlB|Hnot].
        -- by rewrite <- (unique_ids_inj B l r HB HlB Hr Hid).
        -- assert (l ∈ updated (role_diff L B)) as Hin
             by (apply role_diff_updated; eauto).
           rewrite Hu in Hin. by apply not_elem_of_empty in Hin.
      * assert (r ∈ (∅ : gset _Role)) as Hin
          by (by apply (role_diff_deleted_elem L B ∅ r Hd)).
        by apply not_elem_of_empty in Hin.
  - intros ->. by rewrite role_diff_same.
Qed.

(** X1: when no two site roles share an id, the three partitions of the
    role diff are all empty exactly when the live roles and the site roles
    are the same set. *)
Theorem role_diff_noop_iff_equal (L B : gset _Role) :
  unique_ids B →
  (created (role_diff L B) = ∅ ∧ updated (role_diff L B) = ∅ ∧
   deleted (role_diff L B) = Some ∅) ↔ L = B.
Proof. apply role_diff_empty_iff. Qed.

Lemma role_diff_applied (L B : gset _Role) :
  unique_ids L → unique_ids B →
  ∃ X, deleted (role_diff L B) = Some X ∧
       filter (λ b, role_id b ∉
                    (set_map role_id (updated (role_diff L B)) : gset Z))
              (B ∖ X) ∪
       created (role_diff L B) ∪ updated (role_diff L B) = L.
Proof.
  intros HL HB. destruct (role_diff_deleted L B) as (X & HX & Helem).
  exists X. split; [done|]. apply set_eq. intros r.
  rewrite !elem_of_union, elem_of_filter, elem_of_difference, elem_of_map.
  rewrite role_diff_created, role_diff_updated, Helem. split.
  - intros [[(Hstale & Hb & Hkept)|(Hl & _)]|(Hl & _)]; [|done..].
    destruct (same_id_dec L r) as [(l & Hl & Hid)|Hnone]; [|by destruct Hkept].
    destruct (decide (l ∈ B)) as [HlB|Hnot].
    + by rewrite <- (unique_ids_inj B l r HB HlB Hb Hid).
    + destruct Hstale. exists l. split; [done|].
      apply role_diff_updated. eauto.
  - intros Hl. destruct (same_id_dec B r) as [(b & Hb & Hid)|Hnone].
    + destruct (decide (r ∈ B)) as [HrB|Hnot].
      * left; left. split_and!; [|done|].
        -- intros (u & Hid' & (Hu & HuB & _)%role_diff_updated).
           apply HuB. by rewrite <- (unique_ids_inj L r u HL Hl Hu Hid').
        -- intros [_ Hn]. by apply (Hn r).
      * right. eauto.
    + left; right. done.
Qed.

(** X2: when ids are unique within the live roles and within the site
    roles, carrying out the role diff on the site roles gives the live
    roles: removing the deleted roles and the site roles whose id an updated
    role has, then adding the created and the updated roles, yields L. *)
Theorem role_diff_reconciles (L B : gset _Role) :
  unique_ids L → unique_ids B →
  ∃ X, deleted (role_diff L B) = Some X ∧
       filter (λ b, role_id b ∉
                    (set_map role_id (updated (role_diff L B)) : gset Z))
              (B ∖ X) ∪
       created (role_diff L B) ∪ updated (role_diff L B) = L.
Proof. apply role_diff_applied. Qed.

(** X3: when no two site roles share an id, the updated roles are exactly
    the live roles for which the site has a role of the same id that
    differs from it, and every updated role keeps the id of that site
    role. *)
Theorem role_diff_updated_are_stale (L B : gset _Role) (r : _Role) :
  unique_ids B →
  r ∈ updated (role_diff L B) ↔
  r ∈ L ∧ ∃ b, b ∈ B ∧ role_id b = role_id r ∧ b ≠ r.
Proof.
  intros HB. rewrite role_diff_updated. split.
  - intros (Hl & Hnot & b & Hb & Hid). split; [done|]. exists b.
    split_and!; [done..|]. by intros ->.
  - intros (Hl & b & Hb & Hid & Hne). split_and!; [done| |eauto].
    intros HrB. apply Hne. by apply (unique_ids_inj B).
Qed.

(** ** The user diff, field by field *)

Lemma updated_fields_matched guild u m :
  get_member guild (db_id u) = Some m →
  updated_fields_of guild u =
  let guild_roles := gr_id <$> member_roles m in
  (if decide (db_name u = member_name m) then []
   else [("name", VStr (member_name m))]) ++
  (if decide (db_discriminator u = member_discriminator m) then []
   else [("discriminator", VInt (member_discriminator m))]) ++
  (if db_in_guild u then [] else [("in_guild", VBool true)]) ++
  (if decide ((list_to_set (db_roles u) : gset Z) = list_to_set guild_roles)
   then [] else [("roles", VIds guild_roles)]).
Proof.
  intros Hm. unfold updated_fields_of, maybe_update. rewrite Hm. cbv zeta.
  destruct (decide (db_name u = member_name m)) as [->|Hn];
    [rewrite (decide_False (P:=VStr _ ≠ VStr _)) by (by intros H)
    |rewrite (decide_True (P:=VStr _ ≠ VStr _)) by congruence];
  (destruct (decide (db_discriminator u = member_discriminator m)) as [->|Hd];
    [rewrite (decide_False (P:=VInt _ ≠ VInt _)) by (by intros H)
    |rewrite (decide_True (P:=VInt _ ≠ VInt _)) by congruence]);
  (destruct (db_in_guild u);
    [rewrite (decide_False (P:=VBool _ ≠ VBool _)) by (by intros H)
    |rewrite (decide_True (P:=VBool _ ≠ VBool _)) by congruence]);
  (destruct (decide (list_to_set (db_roles u) =@{gset Z}
                     list_to_set (gr_id <$> member_roles m))) as [Hr|Hr];
    [rewrite decide_False by (by intros H)|rewrite decide_True by done]);
  reflexivity.
Qed.

Lemma user_update_nil_iff guild u :
  user_update guild u = [] ↔ updated_fields_of guild u = [].
Proof.
  unfold user_update. destruct (updated_fields_of guild u); [done|].
  split; intros [=].
Qed.

Lemma user_update_matched_nil guild u m :
  get_member guild (db_id u) = Some m →
  user_update guild u = [] ↔ user_in_sync m u.
Proof.
  intros Hm. rewrite user_update_nil_iff, (updated_fields_matched _ _ _ Hm).
  cbv zeta. unfold user_in_sync. rewrite !app_nil. split.
  - intros (Hn & Hd & Hg & Hr).
    destruct (decide (db_name u = member_name m)); [|done].
    destruct (decide (db_discriminator u = member_discriminator m)); [|done].
    destruct (db_in_guild u); [|done].
    by destruct (decide (_ = _)).
  - intros (Hn & Hd & Hg & Hr).
    by rewrite !decide_True, Hg by done.
Qed.

(** X4: a site user that has a live member of its id adds nothing to
    [updated] exactly when name, discriminator and membership agree and
    the two role lists hold the same ids, whatever their order or
    repetitions. *)
Theorem user_update_none_iff_in_sync guild (before after : list DbUser) u m :
  get_member guild (db_id u) = Some m →
  updated (user_diff guild (before ++ u :: after)) =
    updated (user_diff guild before) ++ updated (user_diff guild after) ↔
  db_name u = member_name m ∧
  db_discriminator u = member_discriminator m ∧
  db_in_guild u = true ∧
  (list_to_set (db_roles u) : gset Z) = list_to_set (gr_id <$> member_roles m).
Proof.
  intros Hm. rewrite !user_diff_updated, bind_app, bind_cons.
  change (?P ↔ _) with (P ↔ user_in_sync m u).
  rewrite <- (user_update_matched_nil guild u m Hm). split.
  - intros Heq%app_inv_head. apply (f_equal length) in Heq.
    rewrite length_app in Heq.
    destruct (user_update guild u); [done|simpl in Heq; lia].
  - by intros ->.
Qed.

(** X5: the update entry for a site user that has a live member of its id
    holds the guild's value for each of name, discriminator, in_guild and
    roles that differs, leaves out each one that agrees, and holds the
    id of the site user. *)
Theorem user_update_changed_fields guild u m entry :
  get_member guild (db_id u) = Some m →
  entry ∈ updated (user_diff guild [u]) →
  dict_get "name" entry =
    (if decide (db_name u = member_name m) then None
     else Some (VStr (member_name m))) ∧
  dict_get "discriminator" entry =
    (if decide (db_discriminator u = member_discriminator m) then None
     else Some (VInt (member_discriminator m))) ∧
  dict_get "in_guild" entry =
    (if db_in_guild u then None else Some (VBool true)) ∧
  dict_get "roles" entry =
    (if decide ((list_to_set (db_roles u) : gset Z) =
                list_to_set (gr_id <$> member_roles m))
     then None else Some (VIds (gr_id <$> member_roles m))) ∧
  dict_get "id" entry = Some (VInt (db_id u)).
Proof.
  intros Hm. rewrite user_diff_updated. csimpl. rewrite app_nil_r.
  unfold user_update. rewrite (updated_fields_matched _ _ _ Hm).
  cbv zeta.
  destruct (decide (db_name u = member_name m));
    destruct (decide (db_discriminator u = member_discriminator m));
    destruct (db_in_guild u);
    destruct (decide (list_to_set (db_roles u) =@{gset Z} _));
    cbn [app]; intros Hentry;
    first [by apply elem_of_nil in Hentry
          |apply list_elem_of_singleton in Hentry as ->; by vm_compute].
Qed.

Lemma user_update_unmatched_nil guild u :
  get_member guild (db_id u) = None →
  user_update guild u = [] ↔ db_in_guild u = false.
Proof.
  intros Hm. rewrite user_update_nil_iff. unfold updated_fields_of.
  rewrite Hm. by destruct (db_in_guild u).
Qed.

Lemma bind_nil_iff {A B} (f : A → list B) (l : list A) :
  l ≫= f = [] ↔ ∀ x, x ∈ l → f x = [].
Proof.
  induction l as [|a l IH]; csimpl.
  - split; [by intros _ x ?%elem_of_nil|done].
  - rewrite app_nil, IH. split.
    + intros [Ha Hl] x [->|Hx]%elem_of_cons; auto.
    + intros Hall. split; [apply Hall; left|intros x Hx; apply Hall; by right].
Qed.

Lemma created_nil_iff guild db_users :
  created (user_diff guild db_users) = [] ↔
  ∀ m, m ∈ g_members guild → member_id m ∈ db_id <$> db_users.
Proof.
  rewrite user_diff_created. split.
  - intros Hnil%fmap_nil_inv m Hm.
    destruct (decide (member_id m ∈ seen_members guild db_users)) as [Hs|Hs].
    + by apply seen_members_spec in Hs as [? _].
    + by destruct (filter_nil_not_elem_of _ _ m Hnil Hs).
  - intros Hall.
    destruct (filter _ _) as [|m ms] eqn:Hf; [done|].
    assert (m ∈ filter (λ m, member_id m ∉ seen_members guild db_users)
                       (g_members guild)) as [Hs Hm]%list_elem_of_filter
      by (rewrite Hf; left).
    destruct Hs. apply seen_members_spec. split; [by apply Hall|].
    by apply list_elem_of_fmap_2.
Qed.

Lemma user_diff_empty_iff guild db_users :
  created (user_diff guild db_users) = [] ∧
  updated (user_diff guild db_users) = [] ↔
  (∀ m, m ∈ g_members guild → member_id m ∈ db_id <$> db_users) ∧
  (∀ u, u ∈ db_users →
        match get_member guild (db_id u) with
        | Some m => user_in_sync m u
        | None => db_in_guild u = false
        end).
Proof.
  rewrite created_nil_iff, user_diff_updated, bind_nil_iff.
  apply and_iff_compat_l, forall_proper; intros u.
  apply forall_proper; intros Hu.
  destruct (get_member guild (db_id u)) as [m|] eqn:Hm.
  - by apply user_update_matched_nil.
  - by apply user_update_unmatched_nil.
Qed.

(** X6: the user diff has nothing to create and nothing to update exactly
    when every live member has a site user of its id, every site user with
    a live member agrees with it (name, discriminator, membership, roles
    as a set), and every site user without one is already marked as not
    in the guild. *)
Theorem user_diff_noop_iff guild db_users :
  created (user_diff guild db_users) = [] ∧
  updated (user_diff guild db_users) = [] ↔
  (∀ m, m ∈ g_members guild → member_id m ∈ db_id <$> db_users) ∧
  (∀ u, u ∈ db_users →
        match get_member guild (db_id u) with
        | Some m =>
            db_name u = member_name m ∧
            db_discriminator u = member_discriminator m ∧
            db_in_guild u = true ∧
            (list_to_set (db_roles u) : gset Z) =
              list_to_set (gr_id <$> member_roles m)
        | None => db_in_guild u = false
        end).
Proof. apply user_diff_empty_iff. Qed.

Lemma dict_set_fresh k v (d : dict) :
  Forall (λ kv, kv.1 ≠ k) d → dict_set k v d = d ++ [(k, v)].
Proof.
  induction 1 as [|[k' v'] d Hk _ IH]; simpl in *; [done|].
  by rewrite decide_False, IH.
Qed.

Lemma updated_fields_keys guild u :
  Forall (λ kv, kv.1 ∈ ["name"; "discriminator"; "in_guild"; "roles"])
         (updated_fields_of guild u).
Proof.
  destruct (get_member guild (db_id u)) as [m|] eqn:Hm.
  - rewrite (updated_fields_matched _ _ _ Hm). cbv zeta.
    rewrite !Forall_app. split_and!.
    + destruct (decide _); repeat constructor.
    + destruct (decide _); repeat constructor.
    + destruct (db_in_guild u); repeat constructor.
    + destruct (decide _); repeat constructor.
  - unfold updated_fields_of. rewrite Hm.
    destruct (db_in_guild u); repeat constructor.
Qed.

Lemma user_update_shape guild u entry :
  entry ∈ user_update guild u →
  updated_fields_of guild u ≠ [] ∧
  entry = updated_fields_of guild u ++ [("id", VInt (db_id u))].
Proof.
  unfold user_update. pose proof (updated_fields_keys guild u) as Hkeys.
  destruct (updated_fields_of guild u) as [|kv fields];
    [by intros ?%elem_of_nil|].
  intros ->%list_elem_of_singleton. split; [done|].
  apply dict_set_fresh. eapply Forall_impl; [exact Hkeys|].
  intros [k v] Hk Heq. simpl in Hk, Heq. subst k.
  repeat (apply elem_of_cons in Hk as [Hk|Hk]; [discriminate Hk|]).
  by apply elem_of_nil in Hk.
Qed.

(** X7: every entry of [updated] is made of at least one changed field
    among name, discriminator, in_guild and roles, followed by the id of
    the site user it is for: an entry never holds an id alone and never
    names another field. *)
Theorem updated_entries_shape guild db_users entry :
  entry ∈ updated (user_diff guild db_users) →
  ∃ u fields,
    u ∈ db_users ∧ fields ≠ [] ∧
    Forall (λ kv, kv.1 ∈ ["name"; "discriminator"; "in_guild"; "roles"])
           fields ∧
    entry = fields ++ [("id", VInt (db_id u))].
Proof.
  rewrite user_diff_updated. intros (u & Hentry & Hu)%list_elem_of_bind.
  apply user_update_shape in Hentry as [Hne ->].
  exists u, (updated_fields_of guild u).
  split_and!; [done..|apply updated_fields_keys|done].
Qed.

Lemma user_partition_ids_length_created guild db_users :
  length (user_partition_ids (created (user_diff guild db_users))) =
  length (created (user_diff guild db_users)).
Proof. by rewrite created_ids, user_diff_created, !length_fmap. Qed.

Lemma user_partition_ids_length_updated guild db_users :
  length (user_partition_ids (updated (user_diff guild db_users))) =
  length (updated (user_diff guild db_users)).
Proof.
  rewrite user_diff_updated. unfold user_partition_ids.
  induction db_users as [|u us IH]; csimpl; [done|].
  rewrite omap_app, !length_app, IH, user_update_ids. f_equal.
  unfold user_update. by destruct (updated_fields_of guild u).
Qed.

(** X8: the user diff keeps the order of its inputs and invents nothing:
    the ids of [created] are live member ids in the order of
    [guild.members], the ids of [updated] are site user ids in the order
    the site returned them, and every entry of either list carries an
    id. *)
Theorem user_diff_keeps_order guild db_users :
  user_partition_ids (created (user_diff guild db_users))
    `sublist_of` (member_id <$> g_members guild) ∧
  user_partition_ids (updated (user_diff guild db_users))
    `sublist_of` (db_id <$> db_users) ∧
  length (user_partition_ids (created (user_diff guild db_users))) =
    length (created (user_diff guild db_users)) ∧
  length (user_partition_ids (updated (user_diff guild db_users))) =
    length (updated (user_diff guild db_users)).
Proof.
  split_and!.
  - rewrite created_ids. apply fmap_sublist, sublist_filter.
  - apply updated_ids_sublist.
  - apply user_partition_ids_length_created.
  - apply user_partition_ids_length_updated.
Qed.

(** ** Pagination that fails or never ends *)

Lemma get_users_from_failure api pages e :
  ∀ fuel w cursor,
    cursor ≠ 0 →
    serves_until_failure api (calls w) cursor pages e →
    (length pages < fuel)%nat →
    _get_users_from fuel (Some cursor) api w =
    (Raise e,
     set_calls (calls w ++ (get_users_page <$> cursor :: omap snd pages)) w).
Proof.
  induction pages as [|[results next_page_no] rest IH];
    intros fuel w cursor Hcursor Hserves Hfuel;
    (destruct fuel as [|fuel]; [simpl in Hfuel; lia|]);
    cbn [_get_users_from]; rewrite decide_False by done;
    rewrite bind_run, request_run.
  - simpl in Hserves. by rewrite Hserves.
  - destruct Hserves as (Hpage & next & -> & Hnext & Hrest).
    rewrite Hpage, bind_run.
    rewrite (IH fuel (set_calls (calls w ++ [get_users_page cursor]) w)
                next Hnext Hrest) by (simpl in *; lia).
    f_equal. unfold set_calls; cbn [calls messages log omap list_omap snd].
    by rewrite <- app_assoc.
Qed.

Lemma get_users_yields_failure api pages e :
  ∀ fuel w cursor,
    cursor ≠ 0 →
    serves_until_failure api (calls w) cursor pages e →
    (length pages < fuel)%nat →
    _get_users_yields fuel (Some cursor) api w =
    (concat (fst <$> pages),
     (Raise e,
      set_calls (calls w ++ (get_users_page <$> cursor :: omap snd pages)) w)).
Proof.
  induction pages as [|[results next_page_no] rest IH];
    intros fuel w cursor Hcursor Hserves Hfuel;
    (destruct fuel as [|fuel]; [simpl in Hfuel; lia|]);
    cbn [_get_users_yields]; rewrite decide_False by done;
    rewrite request_run.
  - simpl in Hserves. by rewrite Hserves.
  - destruct Hserves as (Hpage & next & -> & Hnext & Hrest).
    rewrite Hpage.
    rewrite (IH fuel (set_calls (calls w ++ [get_users_page cursor]) w)
                next Hnext Hrest) by (simpl in *; lia).
    unfold set_calls; cbn [calls messages log omap list_omap snd].
    by rewrite <- app_assoc.
Qed.

(** What [_get_users_from] returns is what the generator has yielded when
    it ends normally, and its error otherwise. *)
Lemma get_users_from_yields fuel page api w :
  _get_users_from fuel page api w =
  (match (_get_users_yields fuel page api w).2.1 with
   | Ok _ => Ok (_get_users_yields fuel page api w).1
   | Raise e => Raise e
   | OutOfFuel => OutOfFuel
   end,
   (_get_users_yields fuel page api w).2.2).
Proof.
  revert page w. induction fuel as [|fuel IH]; intros [p|] w;
    cbn [_get_users_from _get_users_yields]; try done;
    destruct (decide (p = 0)); try done.
  rewrite bind_run. destruct (request (get_users_page p) api w)
    as [[[roles|results next_page_no|]|e|] w']; try done.
  rewrite bind_run, IH.
  destruct (_get_users_yields fuel next_page_no api w')
    as [users [[[]|e|] w'']]; done.
Qed.

(** X9: when the site serves some pages, none of which ends the stream,
    and then answers the next page request with an error, the generator
    [_get_users] has yielded the users of the pages served, in order,
    when it raises that error, after requesting cursor 1 and the
    [next_page_no] of every page served; [_get_diff], which consumes it,
    raises the same error after the same requests and returns no diff. *)
Theorem get_users_yields_then_raises api w pages e fuel guild :
  serves_until_failure api (calls w) 1 pages e →
  (length pages < fuel)%nat →
  _get_users_yields fuel (Some 1) api w =
    (concat (fst <$> pages),
     (Raise e,
      set_calls (calls w ++ (get_users_page <$> 1 :: omap snd pages)) w)) ∧
  (UserSyncer_get_diff fuel guild api w).1 = Raise e ∧
  calls (UserSyncer_get_diff fuel guild api w).2 =
    calls w ++ (get_users_page <$> 1 :: omap snd pages).
Proof.
  intros Hserves Hfuel. split; [by apply get_users_yields_failure|].
  unfold UserSyncer_get_diff, log_trace, _get_users.
  rewrite bind_run, log_line_run, bind_run.
  by rewrite (get_users_from_failure api pages e fuel
                (add_log ["TRACE " +:+ "Getting the diff for users."] w) 1).
Qed.

Lemma get_users_from_endless api :
  (∀ hist page, ∃ results next,
     api hist (get_users_page page) = inr (UsersPage results (Some next)) ∧
     next ≠ 0) →
  ∀ fuel w cursor,
    cursor ≠ 0 →
    (_get_users_from fuel (Some cursor) api w).1 = OutOfFuel ∧
    length (calls (_get_users_from fuel (Some cursor) api w).2) =
      (length (calls w) + fuel)%nat.
Proof.
  intros Hendless. induction fuel as [|fuel IH]; intros w cursor Hcursor;
    cbn [_get_users_from]; rewrite decide_False by done.
  - split; [done|]. simpl. lia.
  - destruct (Hendless (calls w) cursor) as (results & next & Hpage & Hnext).
    rewrite bind_run, request_run, Hpage, bind_run.
    destruct (IH (set_calls (calls w ++ [get_users_page cursor]) w) next Hnext)
      as [Hres Hlen].
    destruct (_get_users_from fuel (Some next) api _) as [[users|e|] w'];
      try discriminate Hres.
    split; [done|]. simpl in *. rewrite Hlen, length_app. simpl. lia.
Qed.

(** X10: the loop of [_get_users] has no end of its own: against a site
    whose every page names a next page other than 0, however many turns it
    is given it uses them all, one request each, without returning. *)
Theorem get_users_never_ends_on_endless_stream api :
  (∀ hist page, ∃ results next,
     api hist (get_users_page page) = inr (UsersPage results (Some next)) ∧
     next ≠ 0) →
  ∀ fuel w,
    (_get_users fuel api w).1 = OutOfFuel ∧
    length (calls (_get_users fuel api w).2) = (length (calls w) + fuel)%nat.
Proof. intros Hendless fuel w. by apply get_users_from_endless. Qed.

(** ** Which requests each phase issues *)

Create HintDb issues.

Lemma issues_only_mret {A} P (a : A) : issues_only P (mret a).
Proof. intros api w. exists []. by rewrite app_nil_r. Qed.

Lemma issues_only_raise {A} P e : issues_only P (raise (A:=A) e).
Proof. intros api w. exists []. by rewrite app_nil_r. Qed.

Lemma issues_only_out_of_fuel {A} P : issues_only P (out_of_fuel (A:=A)).
Proof. intros api w. exists []. by rewrite app_nil_r. Qed.

Lemma issues_only_log_line P line : issues_only P (log_line line).
Proof. intros api w. exists []. by rewrite app_nil_r. Qed.

Lemma issues_only_request (P : Call → Prop) c : P c → issues_only P (request c).
Proof.
  intros Hc api w. rewrite request_run. exists [c]. split; [done|].
  by constructor.
Qed.

Lemma issues_only_bind {A B} P (m : M A) (f : A → M B) :
  issues_only P m → (∀ a, issues_only P (f a)) → issues_only P (m ≫= f).
Proof.
  intros Hm Hf api w. rewrite bind_run.
  destruct (Hm api w) as (cs & Hcs & HP).
  destruct (m api w) as [[a|e|] w1]; simpl in *; [|by exists cs..].
  destruct (Hf a api w1) as (cs' & Hcs' & HP').
  exists (cs ++ cs'). split; [by rewrite Hcs', Hcs, app_assoc|].
  by apply Forall_app.
Qed.

Lemma issues_only_for_each {A} P (xs : list A) (f : A → M ()) :
  (∀ x, issues_only P (f x)) → issues_only P (for_each xs f).
Proof.
  intros Hf. induction xs as [|x xs IH]; simpl.
  - apply issues_only_mret.
  - apply issues_only_bind; [apply Hf|by intros _].
Qed.

#[global] Hint Resolve issues_only_mret issues_only_raise
  issues_only_out_of_fuel issues_only_log_line issues_only_for_each : issues.
#[global] Hint Extern 2 (issues_only _ (_ ≫= _)) =>
  apply issues_only_bind; [|intros ?] : issues.
#[global] Hint Extern 1 (issues_only _ (match ?x with _ => _ end)) =>
  destruct x : issues.
#[global] Hint Extern 1 (issues_only _ (log_trace _)) =>
  apply issues_only_log_line : issues.
#[global] Hint Extern 1 (issues_only _ (request _)) =>
  apply issues_only_request; simpl; eauto : issues.

Lemma reads_RoleSyncer_get_diff guild :
  issues_only is_read (RoleSyncer_get_diff guild).
Proof. unfold RoleSyncer_get_diff, is_read. auto 10 with issues. Qed.

Lemma reads_get_users_from fuel page :
  issues_only is_read (_get_users_from fuel page).
Proof.
  revert page. unfold is_read.
  induction fuel as [|fuel IH]; intros [p|]; simpl; auto 10 with issues.
Qed.

Lemma reads_UserSyncer_get_diff fuel guild :
  issues_only is_read (UserSyncer_get_diff fuel guild).
Proof.
  unfold UserSyncer_get_diff, _get_users.
  auto using reads_get_users_from with issues.
Qed.

(** X11: computing a diff only reads: every request [_get_diff] issues,
    for roles and for users, whatever the site answers, is a GET of
    [bot/roles] or of [bot/users]. *)
Theorem get_diff_only_reads (k : kind) fuel guild api w :
  ∃ cs,
    calls (_get_diff (syncer_of k) fuel guild api w).2 = calls w ++ cs ∧
    Forall (λ c, method c = GET ∧
                 (endpoint c = "bot/roles" ∨ endpoint c = "bot/users")) cs.
Proof.
  destruct k.
  - apply (reads_RoleSyncer_get_diff guild).
  - apply (reads_UserSyncer_get_diff fuel guild).
Qed.

Lemma writes_RoleSyncer_sync diff : issues_only is_write (RoleSyncer_sync diff).
Proof.
  unfold RoleSyncer_sync.
  assert (∀ role, is_write (post_role role)) as Hpost
    by (intros role; left; split; [done|by left]).
  assert (∀ role, is_write (put_role role)) as Hput
    by (intros role; right; right; split; [by left|by eexists]).
  assert (∀ role, is_write (delete_role role)) as Hdelete
    by (intros role; right; right; split; [by right|by eexists]).
  auto 12 using issues_only_request with issues.
Qed.

Lemma writes_UserSyncer_sync diff : issues_only is_write (UserSyncer_sync diff).
Proof.
  unfold UserSyncer_sync.
  assert (∀ users, is_write (post_users users)) as Hpost
    by (intros users; left; split; [done|by right]).
  assert (∀ users, is_write (patch_users users)) as Hpatch
    by (intros users; right; left; by split).
  auto 12 using issues_only_request with issues.
Qed.

(** X12: applying a diff only writes: every request [_sync] issues, for
    roles and for users, is a POST of [bot/roles] or [bot/users], a PATCH of
    [bot/users/bulk_patch], or a PUT or DELETE of [bot/roles/<id>]; it
    never reads. *)
Theorem sync_only_writes (k : kind) diff api w :
  ∃ cs,
    calls (_sync (syncer_of k) diff api w).2 = calls w ++ cs ∧
    Forall (λ c,
      ((method c = POST ∧ (endpoint c = "bot/roles" ∨ endpoint c = "bot/users")) ∨
       (method c = PATCH ∧ endpoint c = "bot/users/bulk_patch") ∨
       ((method c = PUT ∨ method c = DELETE) ∧
        ∃ id : Z, endpoint c = "bot/roles/" +:+ pretty id)) ∧
      method c ≠ GET) cs.
Proof.
  assert (∀ c, is_write c → is_write c ∧ method c ≠ GET) as Himpl.
  { intros c Hc. split; [done|].
    destruct Hc as [[Hm _]|[[Hm _]|[[Hm|Hm] _]]]; by rewrite Hm. }
  destruct k.
  - destruct (writes_RoleSyncer_sync diff api w) as (cs & Hcs & HP).
    exists cs. split; [done|]. eapply Forall_impl; [exact HP|exact Himpl].
  - destruct (writes_UserSyncer_sync diff api w) as (cs & Hcs & HP).
    exists cs. split; [done|]. eapply Forall_impl; [exact HP|exact Himpl].
Qed.

(** ** The driver and the sink *)

Lemma sync_sink k fuel guild ctx api w :
  ∃ text,
    messages (sync (syncer_of k) fuel guild ctx api w).2 =
    match ctx with
    | Some _ => messages w ++ [text]
    | None => messages w
    end.
Proof.
  rewrite sync_run.
  assert (∃ text, messages (started (syncer_of k) ctx w) =
                  match ctx with
                  | Some _ => messages w ++ [text]
                  | None => messages w
                  end) as Hstart by (destruct ctx; [by eexists|by exists ""]).
  destruct (_get_diff (syncer_of k) fuel guild api _) as [[diff|e|] w1] eqn:Hd;
    apply get_diff_messages in Hd;
    [|destruct Hstart as [text Hstart]; exists text; simpl; congruence..].
  destruct (_sync (syncer_of k) diff api w1) as [[[]|[status js|kind]|] w2]
    eqn:Hs; apply sync_messages in Hs; simpl;
    try (destruct Hstart as [text Hstart]; exists text; congruence).
  - exists (complete_content (name (syncer_of k)) (results_of diff)).
    rewrite (finish_messages k) by congruence. by destruct ctx.
  - exists (failed_content (name (syncer_of k)) status js).
    rewrite (finish_messages k) by congruence. by destruct ctx.
Qed.

(** X13: a run never sends more than its one notice: without a command
    context [sync] leaves the sink as it was, and with one it leaves
    exactly one more message than before (the start notice, or the
    outcome that replaced it), the earlier messages being untouched;
    this holds whether the run succeeds, reports a failure or raises. *)
Theorem sync_sends_one_notice (k : kind) fuel guild ctx api w :
  ∃ text,
    messages (sync (syncer_of k) fuel guild ctx api w).2 =
    match ctx with
    | Some _ => messages w ++ [text]
    | None => messages w
    end.
Proof. apply sync_sink. Qed.

Lemma issue_trace api cs :
  ∀ hist, ∃ n,
    (issue api hist cs).1 = hist ++ take n cs ∧ (n ≤ length cs)%nat ∧
    ∀ i c, cs !! i = Some c →
           (S i < n ∨ (i < n ∧ (issue api hist cs).2 = None))%nat →
           ∃ r, api (hist ++ take i cs) c = inr r.
Proof.
  induction cs as [|c0 cs IH]; intros hist.
  - exists 0%nat. simpl. rewrite app_nil_r. split_and!; [done..|].
    intros i c Hi. by rewrite lookup_nil in Hi.
  - simpl. destruct (api hist c0) as [e|r] eqn:E.
    + exists 1%nat. simpl. split_and!; [done|lia|].
      intros i c _ [Hi|[_ Hnone]]; [exfalso; lia|done].
    + destruct (IH (hist ++ [c0])) as (n & Hcalls & Hn & Hans).
      exists (S n). rewrite Hcalls, <- app_assoc. split_and!; [done|simpl; lia|].
      intros [|i] c Hi Hcond; simpl in Hi.
      * injection Hi as <-. rewrite take_0, app_nil_r. eauto.
      * destruct (Hans i c Hi) as [r' Hr'].
        { destruct Hcond as [?|[? ?]]; [left; lia|right; split; [lia|done]]. }
        exists r'. by rewrite <- app_assoc in Hr'.
Qed.

Lemma issued_answered api hist planned (res : result ()) :
  (res = Ok () → (issue api hist planned).2 = None) →
  ∃ issued,
    (issue api hist planned).1 = hist ++ issued ∧
    ∀ i c, issued !! i = Some c →
           (S i < length issued)%nat ∨ res = Ok () →
           ∃ r, api (hist ++ take i issued) c = inr r.
Proof.
  intros Hok. destruct (issue_trace api planned hist) as (n & Hcalls & Hn & Hans).
  exists (take n planned). split; [done|]. intros i c Hi Hcond.
  apply lookup_take_Some in Hi as [Hi Hlt].
  rewrite take_take, Nat.min_l by lia. apply Hans; [done|].
  rewrite length_take, Nat.min_l in Hcond by done.
  destruct Hcond as [?|Hres]; [by left|right; auto].
Qed.

(** X14: writes are applied one after the other and nothing is skipped:
    every request [_sync] issued before its last one was answered by
    the site without error, given the requests before it, and so was the
    last one when [_sync] returned normally; a failure is therefore
    always the failure of the last request issued, with all the earlier
    ones already applied. *)
Theorem sync_applies_in_sequence (k : kind) diff api w :
  ∃ issued,
    calls (_sync (syncer_of k) diff api w).2 = calls w ++ issued ∧
    ∀ i c, issued !! i = Some c →
           (S i < length issued)%nat ∨
           (_sync (syncer_of k) diff api w).1 = Ok () →
           ∃ r, api (calls w ++ take i issued) c = inr r.
Proof.
  destruct k.
  - destruct (RoleSyncer_sync_run diff api w) as [Hcalls Hok].
    destruct (issued_answered api (calls w) (role_requests diff) _ Hok)
      as (issued & Hissued & Hans).
    exists issued. split; [|done]. by rewrite <- Hissued.
  - destruct (UserSyncer_sync_run diff api w) as [Hcalls Hok].
    destruct (issued_answered api (calls w) (user_requests diff) _ Hok)
      as (issued & Hissued & Hans).
    exists issued. split; [|done]. by rewrite <- Hissued.
Qed.

(** ** Runs on a guild that is already in sync *)

Lemma role_sync_noop fuel guild ctx api w roles :
  api (calls w) get_roles = inr (RolesJson roles) →
  (list_to_set roles : gset _Role) =
    list_to_set (role_of_guild <$> g_roles guild) →
  ∃ w', sync RoleSyncer fuel guild ctx api w = (Ok (), w') ∧
        calls w' = calls w ++ [get_roles] ∧
        messages w' =
          reported ctx
            ":ok_hand: Synchronisation of roles complete: created `0`, updated `0`, deleted `0`"
            w.
Proof.
  intros Hapi Hroles. rewrite sync_run.
  cbn [_get_diff _sync RoleSyncer]. rewrite RoleSyncer_get_diff_run.
  change (calls (started RoleSyncer ctx w)) with (calls w).
  rewrite Hapi, Hroles, role_diff_same.
  unfold RoleSyncer_sync. cbn [created updated deleted].
  rewrite elements_empty. cbn.
  eexists. split; [reflexivity|]. split; [by destruct ctx|].
  unfold finish, reported, started.
  destruct ctx; cbn [messages add_log set_calls]; [|done].
  by rewrite insert_app_r_alt, Nat.sub_diag by lia.
Qed.

(** X15: when the roles the site returns are, as a set, the roles of the
    guild, a role sync run issues the one read of [bot/roles] and no
    write, returns normally and reports zero created, updated and
    deleted roles. *)
Theorem role_sync_in_sync_is_noop fuel guild ctx api w roles :
  api (calls w) get_roles = inr (RolesJson roles) →
  (list_to_set roles : gset _Role) =
    list_to_set (role_of_guild <$> g_roles guild) →
  ∃ w', sync RoleSyncer fuel guild ctx api w = (Ok (), w') ∧
        calls w' = calls w ++ [get_roles] ∧
        messages w' =
          reported ctx
            ":ok_hand: Synchronisation of roles complete: created `0`, updated `0`, deleted `0`"
            w.
Proof. apply role_sync_noop. Qed.

Lemma user_diff_nil guild db_users :
  created (user_diff guild db_users) = [] →
  updated (user_diff guild db_users) = [] →
  user_diff guild db_users = Diff [] [] None.
Proof.
  intros Hc Hu. pose proof (user_diff_deleted guild db_users) as Hd.
  destruct (user_diff guild db_users) as [c u d]. simpl in *. by subst.
Qed.

Lemma user_sync_noop fuel guild ctx api w pages :
  serves api (calls w) 1 pages →
  (length pages ≤ fuel)%nat →
  (∀ m, m ∈ g_members guild →
        member_id m ∈ db_id <$> concat (fst <$> pages)) →
  (∀ u, u ∈ concat (fst <$> pages) →
        match get_member guild (db_id u) with
        | Some m => user_in_sync m u
        | None => db_in_guild u = false
        end) →
  ∃ w', sync UserSyncer fuel guild ctx api w = (Ok (), w') ∧
        calls w' =
          calls w ++
          (get_users_page <$> 1 :: omap snd (take (length pages - 1) pages)) ∧
        messages w' =
          reported ctx
            ":ok_hand: Synchronisation of users complete: created `0`, updated `0`"
            w.
Proof.
  intros Hserves Hfuel Hmembers Husers.
  destruct (proj2 (user_diff_empty_iff guild (concat (fst <$> pages))))
    as [Hc Hu]; [done|].
  rewrite sync_run. cbn [_get_diff _sync UserSyncer].
  unfold UserSyncer_get_diff, log_trace, _get_users.
  rewrite bind_run, log_line_run, bind_run.
  rewrite (get_users_from_serves api pages fuel
             (add_log ["TRACE " +:+ "Getting the diff for users."]
                      (started UserSyncer ctx w)) 1) by done.
  cbn [mret M_ret]. rewrite (user_diff_nil _ _ Hc Hu). cbn.
  eexists. split; [reflexivity|]. split; [by destruct ctx|].
  unfold finish, reported, started.
  destruct ctx; cbn [messages add_log set_calls]; [|done].
  by rewrite insert_app_r_alt, Nat.sub_diag by lia.
Qed.

(** X16: when the site serves a finite page sequence whose users are in
    sync with the guild (every live member has a site user, every site
    user agrees with its live member or is marked as not in the guild), a
    user sync run issues the page reads and no write, returns normally
    and reports zero created and updated users. *)
Theorem user_sync_in_sync_is_noop fuel guild ctx api w pages :
  serves api (calls w) 1 pages →
  (length pages ≤ fuel)%nat →
  (∀ m, m ∈ g_members guild →
        member_id m ∈ db_id <$> concat (fst <$> pages)) →
  (∀ u, u ∈ concat (fst <$> pages) →
        match get_member guild (db_id u) with
        | Some m =>
            db_name u = member_name m ∧
            db_discriminator u = member_discriminator m ∧
            db_in_guild u = true ∧
            (list_to_set (db_roles u) : gset Z) =
              list_to_set (gr_id <$> member_roles m)
        | None => db_in_guild u = false
        end) →
  ∃ w', sync UserSyncer fuel guild ctx api w = (Ok (), w') ∧
        calls w' =
          calls w ++
          (get_users_page <$> 1 :: omap snd (take (length pages - 1) pages)) ∧
        messages w' =
          reported ctx
            ":ok_hand: Synchronisation of users complete: created `0`, updated `0`"
            w.
Proof. apply user_sync_noop. Qed.

(** ** Reporting does not steer the run *)

Create HintDb driven.

Lemma api_driven_mret {A} (a : A) : api_driven (mret a).
Proof. by intros api w w' Hcalls. Qed.

Lemma api_driven_raise {A} e : api_driven (raise (A:=A) e).
Proof. by intros api w w' Hcalls. Qed.

Lemma api_driven_out_of_fuel {A} : api_driven (out_of_fuel (A:=A)).
Proof. by intros api w w' Hcalls. Qed.

Lemma api_driven_log_line line : api_driven (log_line line).
Proof. by intros api w w' Hcalls. Qed.

Lemma api_driven_request c : api_driven (request c).
Proof. intros api w w' Hcalls. rewrite !request_run. simpl. by rewrite Hcalls. Qed.

Lemma api_driven_bind {A B} (m : M A) (f : A → M B) :
  api_driven m → (∀ a, api_driven (f a)) → api_driven (m ≫= f).
Proof.
  intros Hm Hf api w w' Hcalls. rewrite !bind_run.
  destruct (Hm api w w' Hcalls) as [Hres Hcalls'].
  destruct (m api w) as [[a|e|] w1], (m api w') as [[a'|e'|] w1'];
    simpl in *; simplify_eq; try done.
  by apply Hf.
Qed.

Lemma api_driven_for_each {A} (xs : list A) (f : A → M ()) :
  (∀ x, api_driven (f x)) → api_driven (for_each xs f).
Proof.
  intros Hf. induction xs as [|x xs IH]; simpl.
  - apply api_driven_mret.
  - apply api_driven_bind; [apply Hf|by intros _].
Qed.

#[global] Hint Resolve api_driven_mret api_driven_raise api_driven_out_of_fuel
  api_driven_log_line api_driven_request api_driven_for_each : driven.
#[global] Hint Extern 2 (api_driven (_ ≫= _)) =>
  apply api_driven_bind; [|intros ?] : driven.
#[global] Hint Extern 1 (api_driven (match ?x with _ => _ end)) =>
  destruct x : driven.
#[global] Hint Extern 1 (api_driven (log_trace _)) =>
  apply api_driven_log_line : driven.

Lemma api_driven_get_users_from fuel page :
  api_driven (_get_users_from fuel page).
Proof.
  revert page. induction fuel as [|fuel IH]; intros [p|]; simpl;
    auto 10 with driven.
Qed.

Lemma api_driven_get_diff k fuel guild :
  api_driven (_get_diff (syncer_of k) fuel guild).
Proof.
  destruct k; simpl.
  - unfold RoleSyncer_get_diff. auto 10 with driven.
  - unfold UserSyncer_get_diff, _get_users.
    auto using api_driven_get_users_from with driven.
Qed.

Lemma api_driven_sync k diff : api_driven (_sync (syncer_of k) diff).
Proof.
  destruct k; simpl.
  - unfold RoleSyncer_sync. auto 12 with driven.
  - unfold UserSyncer_sync. auto 12 with driven.
Qed.

Lemma sync_any_context k fuel guild ctx ctx' api w :
  (sync (syncer_of k) fuel guild ctx api w).1 =
    (sync (syncer_of k) fuel guild ctx' api w).1 ∧
  calls (sync (syncer_of k) fuel guild ctx api w).2 =
    calls (sync (syncer_of k) fuel guild ctx' api w).2.
Proof.
  rewrite !sync_run.
  destruct (api_driven_get_diff k fuel guild api
              (started (syncer_of k) ctx w) (started (syncer_of k) ctx' w)
              eq_refl) as [Hres Hcalls].
  destruct (_get_diff (syncer_of k) fuel guild api (started _ ctx w))
    as [[diff|e|] w1],
    (_get_diff (syncer_of k) fuel guild api (started _ ctx' w))
    as [[diff'|e'|] w1']; simpl in *; simplify_eq; try done.
  destruct (api_driven_sync k diff' api w1 w1' Hcalls) as [Hres' Hcalls'].
  destruct (_sync (syncer_of k) diff' api w1) as [[[]|[status js|kind]|] w2],
    (_sync (syncer_of k) diff' api w1') as [[[]|[status' js'|kind']|] w2'];
    simpl in *; simplify_eq; try done;
    by rewrite !finish_calls.
Qed.

(** X17: reporting does not steer a run: with or without a command
    context, [sync] ends the same way (returns, raises the same error, or
    runs out of turns) and issues the same requests. *)
Theorem sync_same_with_or_without_context (k : kind) fuel guild ctx ctx' api w :
  (sync (syncer_of k) fuel guild ctx api w).1 =
    (sync (syncer_of k) fuel guild ctx' api w).1 ∧
  calls (sync (syncer_of k) fuel guild ctx api w).2 =
    calls (sync (syncer_of k) fuel guild ctx' api w).2.
Proof. apply sync_any_context. Qed.

(** * Further concrete runs *)

Lemma role_diff_noop_iff_equal_witness :
  created (role_diff (list_to_set Sample.site_roles)
                     (list_to_set Sample.site_roles)) = ∅ ∧
  updated (role_diff (list_to_set Sample.site_roles)
                     (list_to_set Sample.site_roles)) = ∅ ∧
  deleted (role_diff (list_to_set Sample.site_roles)
                     (list_to_set Sample.site_roles)) = Some ∅.
Proof.
  apply (role_diff_noop_iff_equal (list_to_set Sample.site_roles)
           (list_to_set Sample.site_roles)); [by_evaluation|reflexivity].
Defined.

Lemma role_diff_reconciles_witness :
  ∃ X,
    deleted (role_diff (list_to_set (role_of_guild <$> g_roles Sample.guild))
                       (list_to_set Sample.site_roles)) = Some X ∧
    filter (λ b, role_id b ∉
                 (set_map role_id
                    (updated
                       (role_diff
                          (list_to_set (role_of_guild <$> g_roles Sample.guild))
                          (list_to_set Sample.site_roles))) : gset Z))
           (list_to_set Sample.site_roles ∖ X) ∪
    created (role_diff (list_to_set (role_of_guild <$> g_roles Sample.guild))
                       (list_to_set Sample.site_roles)) ∪
    updated (role_diff (list_to_set (role_of_guild <$> g_roles Sample.guild))
                       (list_to_set Sample.site_roles)) =
    list_to_set (role_of_guild <$> g_roles Sample.guild).
Proof.
  apply (role_diff_reconciles
           (list_to_set (role_of_guild <$> g_roles Sample.guild))
           (list_to_set Sample.site_roles)); by_evaluation.
Defined.

Lemma role_diff_updated_are_stale_witness :
  role_of_guild Sample.admins ∈
  updated (role_diff (list_to_set (role_of_guild <$> g_roles Sample.guild))
                     (list_to_set Sample.site_roles)).
Proof.
  apply (role_diff_updated_are_stale
           (list_to_set (role_of_guild <$> g_roles Sample.guild))
           (list_to_set Sample.site_roles)); [by_evaluation|].
  split; [by_evaluation|]. exists (Role 1 "admin" 255 8 2).
  split_and!; [by_evaluation|reflexivity|discriminate].
Defined.

Lemma user_update_none_iff_in_sync_witness :
  updated (user_diff Sample.guild [Sample.nine_record]) = [].
Proof.
  apply (user_update_none_iff_in_sync Sample.guild [] [] Sample.nine_record
           Sample.nine); [reflexivity|].
  split_and!; [reflexivity..|by_evaluation].
Defined.

Lemma user_update_changed_fields_witness :
  dict_get "name" [("name", VStr "nine"); ("in_guild", VBool true);
                   ("id", VInt 9)] = Some (VStr "nine") ∧
  dict_get "discriminator" [("name", VStr "nine"); ("in_guild", VBool true);
                            ("id", VInt 9)] = None ∧
  dict_get "in_guild" [("name", VStr "nine"); ("in_guild", VBool true);
                       ("id", VInt 9)] = Some (VBool true) ∧
  dict_get "roles" [("name", VStr "nine"); ("in_guild", VBool true);
                    ("id", VInt 9)] = None ∧
  dict_get "id" [("name", VStr "nine"); ("in_guild", VBool true);
                 ("id", VInt 9)] = Some (VInt 9).
Proof.
  apply (user_update_changed_fields Sample.guild Sample.nine_stale Sample.nine).
  - reflexivity.
  - vm_compute. constructor.
Defined.

Lemma updated_entries_shape_witness :
  ∃ u fields,
    u ∈ [Sample.user 5 true] ∧ fields ≠ [] ∧
    Forall (λ kv, kv.1 ∈ ["name"; "discriminator"; "in_guild"; "roles"])
           fields ∧
    [("in_guild", VBool false); ("id", VInt 5)] =
      fields ++ [("id", VInt (db_id u))].
Proof.
  apply (updated_entries_shape Sample.guild [Sample.user 5 true]).
  vm_compute. constructor.
Defined.

Lemma get_users_yields_then_raises_witness :
  _get_users_yields 2 (Some 1) Sample.failing_reads world0 =
    ([Sample.user 1 false; Sample.user 2 false],
     (Raise (ResponseCodeError 500 JNull),
      set_calls [get_users_page 1; get_users_page 2] world0)) ∧
  (UserSyncer_get_diff 2 Sample.guild Sample.failing_reads world0).1 =
    Raise (ResponseCodeError 500 JNull) ∧
  calls (UserSyncer_get_diff 2 Sample.guild Sample.failing_reads world0).2 =
    [get_users_page 1; get_users_page 2].
Proof.
  apply (get_users_yields_then_raises Sample.failing_reads world0
           [([Sample.user 1 false; Sample.user 2 false], Some 2)]
           (ResponseCodeError 500 JNull) 2 Sample.guild).
  - split; [reflexivity|]. exists 2. split_and!; [reflexivity|discriminate|].
    reflexivity.
  - simpl. lia.
Defined.

Lemma get_users_never_ends_witness :
  (_get_users 3 Sample.endless world0).1 = OutOfFuel ∧
  length (calls (_get_users 3 Sample.endless world0).2) = 3%nat.
Proof.
  apply (get_users_never_ends_on_endless_stream Sample.endless).
  intros hist page. exists [], 1. split; [reflexivity|discriminate].
Defined.

Lemma role_sync_in_sync_is_noop_witness :
  ∃ w', sync RoleSyncer 0 Sample.guild (Some CommandContext)
             Sample.synced_roles world0 = (Ok (), w') ∧
        calls w' = [get_roles] ∧
        messages w' =
          [":ok_hand: Synchronisation of roles complete: created `0`, updated `0`, deleted `0`"].
Proof.
  apply (role_sync_in_sync_is_noop 0 Sample.guild (Some CommandContext)
           Sample.synced_roles world0
           [role_of_guild Sample.helpers; role_of_guild Sample.admins;
            role_of_guild Sample.helpers]).
  - reflexivity.
  - by_evaluation.
Defined.

Lemma user_sync_in_sync_is_noop_witness :
  ∃ w', sync UserSyncer 1 Sample.guild (Some CommandContext)
             Sample.synced_users world0 = (Ok (), w') ∧
        calls w' = [get_users_page 1] ∧
        messages w' =
          [":ok_hand: Synchronisation of users complete: created `0`, updated `0`"].
Proof.
  apply (user_sync_in_sync_is_noop 1 Sample.guild (Some CommandContext)
           Sample.synced_users world0
           [([Sample.nine_record; Sample.user 5 false], Some 0)]).
  - split; [reflexivity|by right].
  - simpl. lia.
  - intros m ->%list_elem_of_singleton. vm_compute. constructor.
  - intros u [->|[->|Hu%elem_of_nil]%elem_of_cons]%elem_of_cons; [| |done].
    + vm_compute. by split_and!.
    + reflexivity.
Defined.
